(** * PyOrion: the transport relay, the process orchestrator and the helpers

    A shallow embedding of the Python sources of [pyorion]:

    - [pyorion/utils.py]                ([Utils]: [split_address]),
    - [pyorion/__main__.py]             ([Cli]: the [click] group),
    - [pyorion/runtime/connections.py]  ([Connections]: the WebSocket relay),
    - [pyorion/runtime/runtime.py]      ([Runtime]: background tasks, task
                                         cancellation, process termination).

    Python exceptions are values of [exception]; a call that may raise
    returns a [result].  Module-level mutable objects (the sets in
    [runtime/core], the registry of commands) are fields of an explicit
    store that every operation threads through. *)

From Stdlib Require Import ZArith String Ascii List Bool Lia QArith Lqa.
From stdpp Require Import base option list gmap sets strings.

#[local] Set Warnings "-clear-no-such-hyp".

#[local] Open Scope string_scope.
#[local] Open Scope Z_scope.
#[local] Open Scope list_scope.

(** ** Python values shared by all modules *)

Module Py.

(** A message built from a format string and its arguments, kept
    unrendered ([%s], [{x!r}] are not interpreted). *)
Record message := Msg { template : string; args : list string }.

(** The exception classes the sources raise or catch. *)
Inductive exception : Type :=
| ValueError (m : message)
| JSONDecodeError (m : message)        (* subclass of ValueError *)
| TypeError (m : message)
| KeyError (m : message)
| ImportError (m : message)
| ConnectionClosed                     (* websockets.ConnectionClosed *)
| CancelledError                       (* asyncio.CancelledError: a BaseException *)
| RuntimeError (m : message).

(** [isinstance(e, ValueError)] *)
Definition is_ValueError (e : exception) : bool :=
  match e with
  | ValueError _ | JSONDecodeError _ => true
  | _ => false
  end.

(** [isinstance(e, json.JSONDecodeError)] *)
Definition is_JSONDecodeError (e : exception) : bool :=
  match e with
  | JSONDecodeError _ => true
  | _ => false
  end.

(** [isinstance(e, asyncio.CancelledError)] *)
Definition is_CancelledError (e : exception) : bool :=
  match e with
  | CancelledError => true
  | _ => false
  end.

(** [isinstance(e, Exception)]: everything but [CancelledError], which
    derives from [BaseException] directly. *)
Definition is_Exception (e : exception) : bool :=
  negb (is_CancelledError e).

(** The outcome of evaluating a Python expression or call. *)
Inductive result (A : Type) : Type :=
| Return (a : A)
| Raise (e : exception).
Arguments Return {A} a.
Arguments Raise {A} e.

Definition bind {A B} (r : result A) (k : A → result B) : result B :=
  match r with
  | Return a => k a
  | Raise e => Raise e
  end.

(** [try: body  except ValueError as exc: raise handler(exc)] *)
Definition except_ValueError {A} (body : result A)
    (handler : exception → exception) : result A :=
  match body with
  | Return a => Return a
  | Raise e => if is_ValueError e then Raise (handler e) else Raise e
  end.

End Py.

(** ** [pyorion/utils.py] *)

Module Utils.
Import Py.

(** *** String primitives *)

(** [c in s] for a one-character [c]. *)
Fixpoint contains (c : ascii) (s : string) : bool :=
  match s with
  | EmptyString => false
  | String c' rest => Ascii.eqb c' c || contains c rest
  end.

(** The split position of [s.rsplit(sep, 1)]: the text before and after
    the last occurrence of [sep], if there is one. *)
Fixpoint rsplit_last (sep : ascii) (s : string) : option (string * string) :=
  match s with
  | EmptyString => None
  | String c rest =>
      match rsplit_last sep rest with
      | Some (before, after) => Some (String c before, after)
      | None => if Ascii.eqb c sep then Some (EmptyString, rest) else None
      end
  end.

(** [s.rsplit(sep, 1)]: a list of two strings, or [[s]] when [sep] does
    not occur. *)
Definition rsplit1 (sep : ascii) (s : string) : list string :=
  match rsplit_last sep s with
  | Some (before, after) => [before; after]
  | None => [s]
  end.

(** *** [int(str)] on ASCII text

    Optional surrounding white space, an optional sign, then decimal
    digits in which single underscores may separate digits.  The text is
    ASCII: the decimal digits of other scripts, which [int] accepts as
    well, are not digits here; and the interpreter's limit on the length
    of a literal (4300 digits) is left out.  [split_address] is
    verified for any [int]; this one is used on port numbers only. *)

Definition is_space (c : ascii) : bool :=
  let n := nat_of_ascii c in
  (n =? 32)%nat || ((9 <=? n)%nat && (n <=? 13)%nat).

Definition digit_value (c : ascii) : option Z :=
  let n := nat_of_ascii c in
  if ((48 <=? n)%nat && (n <=? 57)%nat)%bool
  then Some (Z.of_nat (n - 48))
  else None.

Fixpoint lstrip (s : string) : string :=
  match s with
  | String c rest => if is_space c then lstrip rest else s
  | EmptyString => EmptyString
  end.

Fixpoint rstrip (s : string) : string :=
  match s with
  | EmptyString => EmptyString
  | String c rest =>
      match rstrip rest with
      | EmptyString => if is_space c then EmptyString else String c EmptyString
      | kept => String c kept
      end
  end.

(** Digits after the first one; [after_underscore] says that the previous
    character was an underscore, which a digit must follow. *)
Fixpoint more_digits (acc : Z) (after_underscore : bool) (s : string) : option Z :=
  match s with
  | EmptyString => if after_underscore then None else Some acc
  | String c rest =>
      if Ascii.eqb c "_"
      then (if after_underscore then None else more_digits acc true rest)
      else match digit_value c with
           | Some d => more_digits (10 * acc + d) false rest
           | None => None
           end
  end.

Definition unsigned_literal (s : string) : option Z :=
  match s with
  | EmptyString => None
  | String c rest =>
      match digit_value c with
      | Some d => more_digits d false rest
      | None => None
      end
  end.

(** [int(s)]; [None] stands for the [ValueError] of an invalid literal. *)
Definition int_of_str (s : string) : option Z :=
  match rstrip (lstrip s) with
  | String "+" body => unsigned_literal body
  | String "-" body => Z.opp <$> unsigned_literal body
  | body => unsigned_literal body
  end.

(** *** [split_address] *)

Section SplitAddress.

(** The builtin [int] applied to a [str]: it returns an integer or
    raises [ValueError] ([None]).  [int_of_str] is its instance on
    ASCII text; the properties below hold for any such function. *)
Variable int : string → option Z.

Definition int_call (s : string) : result Z :=
  match int s with
  | Some n => Return n
  | None => Raise (ValueError (Msg "invalid literal for int() with base 10: {!r}" [s]))
  end.

(** The body of the [try] block: parse, then range-check. *)
Definition parse_port (port_str : string) : result Z :=
  bind (int_call port_str) (λ port,
    if negb ((0 <=? port) && (port <=? 65535))
    then Raise (ValueError (Msg "Port must be between 0 and 65535: {}" [port_str]))
    else Return port).

Definition split_address (address : string) : result (string * Z) :=
  if negb (contains ":" address)
  then Raise (ValueError
                (Msg "Invalid address format: {!r}. Expected: 'host:port'." [address]))
  else
    match rsplit1 ":" address with
    | [host; port_str] =>
        if decide (host = EmptyString)
        then Raise (ValueError (Msg "Host part must not be empty." []))
        else if decide (port_str = EmptyString)
        then Raise (ValueError (Msg "Port part must not be empty." []))
        else
          bind (except_ValueError (parse_port port_str)
                  (λ _, ValueError (Msg "Invalid port: {!r}. Must be an integer." [port_str])))
               (λ port, Return (host, port))
    | _ =>
        (* unpacking a list that has not exactly two items *)
        Raise (ValueError (Msg "not enough values to unpack (expected 2, got {})" []))
    end.

(** [address] reads [host], a colon, [port_str], and that colon is the
    last one. *)
Definition splits_at_last_colon (address host port_str : string) : Prop :=
  address = host +:+ String ":" port_str ∧ contains ":" port_str = false.

(** The addresses the docstring's format [host:port] excludes. *)
Definition invalid_address (address : string) : Prop :=
  contains ":" address = false ∨
  ∃ host port_str,
    splits_at_last_colon address host port_str ∧
    (host = EmptyString ∨ port_str = EmptyString ∨ int port_str = None ∨
     ∃ port, int port_str = Some port ∧ ¬ (0 ≤ port ≤ 65535)).

(** The outcomes of the [try] block with its [except] clause. *)
Inductive port_outcome (port_str : string) : result Z → Prop :=
| port_not_integer m :
    int port_str = None →
    port_outcome port_str (Raise (ValueError m))
| port_out_of_range port m :
    int port_str = Some port → ¬ (0 ≤ port ≤ 65535) →
    port_outcome port_str (Raise (ValueError m))
| port_accepted port :
    int port_str = Some port → 0 ≤ port ≤ 65535 →
    port_outcome port_str (Return port).

(** The five ways [split_address] can go. *)
Inductive address_outcome (address : string) : result (string * Z) → Prop :=
| address_without_colon m :
    contains ":" address = false →
    address_outcome address (Raise (ValueError m))
| address_empty_host host port_str m :
    splits_at_last_colon address host port_str → host = EmptyString →
    address_outcome address (Raise (ValueError m))
| address_empty_port host port_str m :
    splits_at_last_colon address host port_str → port_str = EmptyString →
    address_outcome address (Raise (ValueError m))
| address_bad_port host port_str m :
    splits_at_last_colon address host port_str →
    (int port_str = None ∨ ∃ port, int port_str = Some port ∧ ¬ (0 ≤ port ≤ 65535)) →
    address_outcome address (Raise (ValueError m))
| address_accepted host port_str port :
    splits_at_last_colon address host port_str →
    host ≠ EmptyString → port_str ≠ EmptyString →
    int port_str = Some port → 0 ≤ port ≤ 65535 →
    address_outcome address (Return (host, port)).

End SplitAddress.

End Utils.

(** ** [pyorion/__main__.py] *)

Module Cli.
Import Py.

(** The names [pyorion/utils.py] binds at module level: its imports and
    its [def]s, in source order. *)
Definition utils_namespace : list string :=
  [ "dataclasses"; "socket"; "Path"; "Any"; "BaseModel";
    "find_folder"; "load_html"; "_fallback_html";
    "find_free_ports_and_create_addrs"; "split_address";
    "make_json_safe"; "normalize_args" ].

(** [from module import name]: the attribute must exist in the module's
    namespace ([pyorion.utils] is a plain module, so there is no
    submodule to fall back to). *)
Definition import_from (module : string) (namespace : list string)
    (name : string) : result unit :=
  if bool_decide (name ∈ namespace)
  then Return tt
  else Raise (ImportError (Msg "cannot import name {!r} from {!r}" [name; module])).

(** What running the program did that is visible outside of it. *)
Inductive effect : Type :=
| Call (function : string)       (* a call of an imported helper *)
| PrintUsage.                    (* click's help or usage text *)

(** The [click] group [cli] with its single command.  [click] derives the
    command's name from the function's, with dashes for underscores.  A
    group called without a command prints its help and, from click 8.2
    on, exits with status 2 as for any other usage error. *)
Definition cli (argv : list string) : Z * list effect :=
  match argv with
  | "remove-pycash" :: [] => (0, [Call "remove_pycash"])
  | "--help" :: _ => (0, [PrintUsage])
  | _ => (2, [PrintUsage])
  end.

(** [python -m pyorion argv]: the module body runs top to bottom; an
    exception that escapes it ends the interpreter with status 1. *)
Definition main (argv : list string) : Z * list effect :=
  match import_from "pyorion.utils" utils_namespace "remove_pycash" with
  | Raise _ => (1, [])
  | Return _ => cli argv
  end.

End Cli.

(** ** JSON documents, as [json.loads] returns them *)

Module Json.

#[warnings="-register-all"]
Inductive value : Type :=
| Null
| Bool (b : bool)
| Number (literal : string)              (* an [int] or [float], by its text *)
| Str (s : string)
| Array (items : list value)             (* a Python [list] *)
| Object (fields : gmap string value).   (* a Python [dict] *)

(** [isinstance(v, dict)] *)
Definition is_dict (v : value) : bool :=
  match v with
  | Object _ => true
  | _ => false
  end.

(** Lists and dicts have no hash. *)
Definition hashable (v : value) : bool :=
  match v with
  | Array _ | Object _ => false
  | _ => true
  end.

End Json.

(** ** [pyorion/runtime/connections.py] *)

Module Connections.
Import Py.

(** The identity of a [ServerConnection] object. *)
Definition client := positive.

(** A registered handler function, known to the relay by its [__name__]. *)
Record handler := Handler { handler_name : string }.

Inductive level := INFO | WARNING | ERROR.

(** An argument of a logging call, before formatting. *)
Inductive log_arg : Type :=
| ArgValue (v : Json.value)
| ArgCommands (names : gmap string (list string))
| ArgPeer (c : client)                   (* [websocket.remote_address] *)
| ArgException (e : exception).

(** One call of [logging.warning], [logging.error], [logging.info] or
    [logging.exception] (level [ERROR], with the traceback). *)
Record log_record := Log {
  log_level : level;
  log_format : string;
  log_args : list log_arg;
  log_traceback : bool
}.

(** The arguments of one call of [make_callback]. *)
Record invocation := Invocation {
  inv_cmd : Json.value;
  inv_result_id : Json.value;
  inv_error_id : Json.value;
  inv_payload : Json.value
}.

(** One call of [client.send]: the peer, the text, and whether the peer
    got it ([false]: the call raised). *)
Record send_record := Sent {
  sent_to : client;
  sent_text : string;
  delivered : bool
}.

(** Modelled from the spec: [runtime/core.py] and [pyinvoke.py] are not
    among the sources.  [connected_clients] stands for
    [core.connected_clients], the spec's ConnectedClientSet: the set of
    live connections, used through [add] and [discard].
    [event_callbacks] stands for [pyinvoke._event_callbacks], its Command
    Registry: a mapping from a command name to the list of its handlers.

    The other fields are what the relay does to its surroundings:
    [closed_peers] are the connections whose [send] raises
    [ConnectionClosed]; [sends] lists the calls of [send]; [log] is the
    output of the [logging] module; [invoked] lists the calls of
    [make_callback] the relay made. *)
Record world := World {
  connected_clients : gset client;
  event_callbacks : gmap string (list handler);
  closed_peers : gset client;
  sends : list send_record;
  log : list log_record;
  invoked : list invocation
}.

Definition set_connected_clients (s : gset client) (w : world) : world :=
  World s (event_callbacks w) (closed_peers w) (sends w) (log w) (invoked w).

Definition set_invoked (i : list invocation) (w : world) : world :=
  World (connected_clients w) (event_callbacks w) (closed_peers w) (sends w) (log w) i.

Definition record_send (r : send_record) (w : world) : world :=
  World (connected_clients w) (event_callbacks w) (closed_peers w)
        (sends w ++ [r]) (log w) (invoked w).

Definition emit (r : log_record) (w : world) : world :=
  World (connected_clients w) (event_callbacks w) (closed_peers w) (sends w)
        (log w ++ [r]) (invoked w).

(** [list_commands()] *)
Definition list_commands (w : world) : gmap string (list string) :=
  fmap (M := gmap string) (λ funcs : list handler, handler_name <$> funcs)
       (event_callbacks w).

(** [await client.send(message)] *)
Definition send (c : client) (message : string) (w : world) : world * result unit :=
  if bool_decide (c ∈ closed_peers w)
  then (record_send (Sent c message false) w, Raise ConnectionClosed)
  else (record_send (Sent c message true) w, Return tt).

(** [await asyncio.gather] over [client.send(message)] for each client,
    without [return_exceptions]: every send runs; the first exception
    raised reaches the caller, and the sends that are still running are
    not cancelled. *)
Fixpoint gather_sends (clients : list client) (message : string) (w : world)
    : world * result unit :=
  match clients with
  | [] => (w, Return tt)
  | c :: rest =>
      let '(w1, r1) := send c message w in
      let '(w2, r2) := gather_sends rest message w1 in
      (w2, match r1 with
           | Raise e => Raise e
           | Return _ => r2
           end)
  end.

(** The record of sending [text] to [c] in the world [w]. *)
Definition send_result (w : world) (text : string) (c : client) : send_record :=
  Sent c text (bool_decide (c ∉ closed_peers w)).

(** The broadcast of lines 64-70. *)
Definition broadcast (message : string) (w : world) : world * result unit :=
  gather_sends (elements (connected_clients w)) message w.

(** The collaborators of the relay that live outside these sources. *)
Class Collaborators := {
  (** what [make_callback] returns *)
  response : Type;
  (** [json.loads] *)
  json_loads : string → result Json.value;
  (** Modelled from the spec: [pyinvoke.make_callback], the spec's
      Dispatcher, is not among the sources.  It runs the handlers of a
      command and produces a response; being awaited, it runs while other
      tasks of the event loop change the shared objects. *)
  make_callback : Json.value → Json.value → Json.value → Json.value →
                  world → world * result response;
  (** [isinstance(response, BaseModel)] *)
  is_BaseModel : response → bool;
  (** [response.model_dump_json(by_alias=True)] *)
  model_dump_json : response → result string;
  (** [json.dumps(response)] *)
  json_dumps : response → result string
}.

Section Relay.
Context `{Collaborators}.

(** The keys of an envelope. *)
Definition envelope_keys : list string := ["cmd"; "result_id"; "error_id"; "payload"].

(** [all(k in payload for k in ("cmd", "result_id", "error_id", "payload"))] *)
Definition has_envelope_keys (fields : gmap string Json.value) : bool :=
  forallb (λ k, bool_decide (is_Some (fields !! k))) envelope_keys.

(** [payload[k]] *)
Definition getitem (fields : gmap string Json.value) (k : string) : result Json.value :=
  match fields !! k with
  | Some v => Return v
  | None => Raise (KeyError (Msg "{!r}" [k]))
  end.

(** [cmd not in _event_callbacks]: hashing [cmd] comes first. *)
Definition not_registered (cmd : Json.value) (w : world) : result bool :=
  if Json.hashable cmd
  then Return (match cmd with
               | Json.Str name => bool_decide (event_callbacks w !! name = None)
               | _ => true
               end)
  else Raise (TypeError (Msg "unhashable type" [])).

(** Lines 58-62. *)
Definition response_msg (r : response) : result string :=
  if is_BaseModel r then model_dump_json r else json_dumps r.

(** The body of the inner [try], lines 31-72.  [Return tt] covers both
    falling off its end and [continue]. *)
Definition message_body (message : string) (w : world) : world * result unit :=
  match json_loads message with
  | Raise e => (w, Raise e)
  | Return payload =>
      match payload with
      | Json.Object fields =>
          if has_envelope_keys fields then
            match getitem fields "cmd" with
            | Raise e => (w, Raise e)
            | Return cmd =>
                match not_registered cmd w with
                | Raise e => (w, Raise e)
                | Return true =>
                    (emit (Log ERROR "No handler registered for event '%s'. Available: %s"
                               [ArgValue cmd; ArgCommands (list_commands w)] false) w,
                     Return tt)
                | Return false =>
                    match getitem fields "result_id", getitem fields "error_id",
                          getitem fields "payload" with
                    | Return result_id, Return error_id, Return body =>
                        let call := Invocation cmd result_id error_id body in
                        let '(w1, r) := make_callback cmd result_id error_id body w in
                        (* the relay's own record, out of the callback's reach *)
                        let w1 := set_invoked (invoked w ++ [call]) w1 in
                        match r with
                        | Raise e => (w1, Raise e)
                        | Return response =>
                            match response_msg response with
                            | Raise e => (w1, Raise e)
                            | Return text => broadcast text w1
                            end
                        end
                    | Raise e, _, _ | _, Raise e, _ | _, _, Raise e => (w, Raise e)
                    end
                end
            end
          else
            (emit (Log WARNING "Incomplete message keys: %s" [ArgValue payload] false) w,
             Return tt)
      | _ =>
          (emit (Log WARNING "Ignoring non-dict payload: %s" [ArgValue payload] false) w,
           Return tt)
      end
  end.

(** One turn of the [async for] loop: the inner [try] with its two
    [except] clauses.  An exception that is not an [Exception] goes
    through. *)
Definition process_message (websocket : client) (message : string) (w : world)
    : world * result unit :=
  let '(w1, r) := message_body message w in
  match r with
  | Return _ => (w1, Return tt)
  | Raise e =>
      if is_JSONDecodeError e then
        (emit (Log ERROR "Malformed JSON from %s: %s"
                   [ArgPeer websocket; ArgException e] false) w1,
         Return tt)
      else if is_Exception e then
        (emit (Log ERROR "Unexpected error handling message: %s"
                   [ArgException e] true) w1,
         Return tt)
      else (w1, Raise e)
  end.

(** How the stream of inbound messages ends: the iterator stops when the
    peer closed the connection normally and raises [ConnectionClosed]
    otherwise. *)
Inductive closure := ClosedOK | ClosedError.

(** [async for message in websocket: ...] *)
Fixpoint receive (websocket : client) (messages : list string) (ending : closure)
    (w : world) : world * result unit :=
  match messages with
  | [] =>
      match ending with
      | ClosedOK => (w, Return tt)
      | ClosedError => (w, Raise ConnectionClosed)
      end
  | message :: rest =>
      let '(w1, r) := process_message websocket message w in
      match r with
      | Return _ => receive websocket rest ending w1
      | Raise e => (w1, Raise e)
      end
  end.

(** The handler of one connection, fed the messages the peer sends until
    it closes. *)
Definition handle_frontend_connections (websocket : client)
    (messages : list string) (ending : closure) (w : world) : world * result unit :=
  let w0 := set_connected_clients ({[websocket]} ∪ connected_clients w) w in
  let '(w1, r) := receive websocket messages ending w0 in
  let '(w2, r2) :=
    match r with
    | Raise ConnectionClosed =>
        (emit (Log INFO "Client disconnected: %s" [ArgPeer websocket] false) w1, Return tt)
    | _ => (w1, r)
    end in
  (set_connected_clients (connected_clients w2 ∖ {[websocket]}) w2, r2).

(** *** The vocabulary of the claims *)

(** [message] is JSON text for an object that has the four keys of an
    envelope, with the values [call] lists. *)
Definition envelope (message : string) (call : invocation) : Prop :=
  ∃ fields,
    json_loads message = Return (Json.Object fields) ∧
    fields !! "cmd" = Some (inv_cmd call) ∧
    fields !! "result_id" = Some (inv_result_id call) ∧
    fields !! "error_id" = Some (inv_error_id call) ∧
    fields !! "payload" = Some (inv_payload call).

(** [cmd] names a command that has handlers. *)
Definition registered (cmd : Json.value) (w : world) : Prop :=
  ∃ name, cmd = Json.Str name ∧ is_Some (event_callbacks w !! name).

(** Dispatching [call] in [w] succeeds: the dispatcher returns a response
    that renders as [text], and the world is [w1] by then. *)
Definition answers (call : invocation) (w w1 : world) (text : string) : Prop :=
  ∃ r, make_callback (inv_cmd call) (inv_result_id call) (inv_error_id call)
                     (inv_payload call) w = (w1, Return r) ∧
       response_msg r = Return text.

(** [message] is no envelope: broken JSON, JSON that is not an object, or
    an object that lacks one of the four keys. *)
Definition malformed (message : string) : Prop :=
  (∃ m, json_loads message = Raise (JSONDecodeError m)) ∨
  (∃ v, json_loads message = Return v ∧ Json.is_dict v = false) ∨
  (∃ fields k, json_loads message = Return (Json.Object fields) ∧
               k ∈ envelope_keys ∧ fields !! k = None).

(** [w'] differs from [w] by one more call of [make_callback]. *)
Definition dispatched (w w' : world) : Prop :=
  ∃ call, invoked w' = invoked w ++ [call].

End Relay.

End Connections.

(** ** [pyorion/runtime/runtime.py] *)

Module Runtime.
Import Py.

(** *** The event loop and its tasks *)

(** The identity of an [asyncio.Task]. *)
Definition task := positive.

(** How a task ended: with a value, or with an exception. *)
Inductive outcome := Returned | Failed (e : exception).

(** What a coroutine does once [CancelledError] is thrown into it: it ends
    (re-raising it, raising something else, or returning), or it catches
    the exception and keeps running. *)
Inductive reaction := Finishes (o : outcome) | KeepsRunning.

Record coroutine := Coroutine { coro_name : string; on_cancel : reaction }.

(** A done-callback of a task. *)
Inductive callback :=
| DiscardBackgroundTask        (* [core.background_tasks.discard] *)
| OtherCallback (name : string).

#[global] Instance callback_eq_dec : EqDecision callback.
Proof. solve_decision. Defined.

Inductive status := Pending | Done (o : outcome).

(** A task: the coroutine it drives, its state, whether [cancel()] was
    requested, and the done-callbacks that have not been called yet. *)
Record task_record := Task {
  coro : coroutine;
  state : status;
  cancel_requested : bool;
  done_callbacks : list callback
}.

(** One line written by [print]. *)
Inductive printed := TaskRaisedDuringShutdown (e : exception).

(** Modelled from the spec: [runtime/core.py] is not among the sources.
    [background_tasks] stands for [core.background_tasks], the spec's
    BackgroundTaskSet: a set of tasks, used through [add] and [discard].

    The other fields are the running event loop: its tasks, the task that
    is running, and what was printed. *)
Record loop := Loop {
  tasks : gmap task task_record;
  current_task : task;
  background_tasks : gset task;
  stdout : list printed
}.

Definition set_tasks (m : gmap task task_record) (l : loop) : loop :=
  Loop m (current_task l) (background_tasks l) (stdout l).

Definition set_background_tasks (s : gset task) (l : loop) : loop :=
  Loop (tasks l) (current_task l) s (stdout l).

Definition print (p : printed) (l : loop) : loop :=
  Loop (tasks l) (current_task l) (background_tasks l) (stdout l ++ [p]).

Definition is_pending (r : task_record) : bool :=
  match state r with
  | Pending => true
  | Done _ => false
  end.

(** [asyncio.create_task(coro)]: a new task, distinct from all others. *)
Definition create_task (c : coroutine) (l : loop) : task * loop :=
  let t := fresh (dom (tasks l)) in
  (t, set_tasks (<[t := Task c Pending false []]> (tasks l)) l).

(** [task.add_done_callback(cb)] *)
Definition add_done_callback (t : task) (cb : callback) (l : loop) : loop :=
  set_tasks (alter (λ r, Task (coro r) (state r) (cancel_requested r)
                              (done_callbacks r ++ [cb])) t (tasks l)) l.

(** [launch_background_task(coro)] *)
Definition launch_background_task (c : coroutine) (l : loop) : task * loop :=
  let '(t, l1) := create_task c l in
  let l2 := set_background_tasks ({[t]} ∪ background_tasks l1) l1 in
  let l3 := add_done_callback t DiscardBackgroundTask l2 in
  (t, l3).

(** A pending task ends with outcome [o]; its callbacks are now due. *)
Definition complete (t : task) (o : outcome) (l : loop) : loop :=
  set_tasks (alter (λ r, if is_pending r
                         then Task (coro r) (Done o) (cancel_requested r) (done_callbacks r)
                         else r) t (tasks l)) l.

(** Calling one done-callback of task [t]. *)
Definition run_callback (t : task) (cb : callback) (l : loop) : loop :=
  match cb with
  | DiscardBackgroundTask => set_background_tasks (background_tasks l ∖ {[t]}) l
  | OtherCallback _ => l
  end.

(** The loop calls the done-callbacks of a finished task, in the order of
    their registration, once. *)
Definition run_done_callbacks (t : task) (l : loop) : loop :=
  match tasks l !! t with
  | Some r =>
      if is_pending r then l
      else
        let cleared := Task (coro r) (state r) (cancel_requested r) [] in
        foldl (λ l' cb, run_callback t cb l')
              (set_tasks (<[t := cleared]> (tasks l)) l) (done_callbacks r)
  | None => l
  end.

(** The done-callbacks of [t] have all been called. *)
Definition callbacks_ran (t : task) (l : loop) : Prop :=
  ∃ r, tasks l !! t = Some r ∧ is_pending r = false ∧ done_callbacks r = [].

(** A cancellation request reaches a task: a finished task ignores it. *)
Definition request_cancel (r : task_record) : task_record :=
  if is_pending r
  then Task (coro r) (state r) true (done_callbacks r)
  else r.

(** [task.cancel()] *)
Definition cancel (t : task) (l : loop) : loop :=
  set_tasks (alter request_cancel t (tasks l)) l.

(** [for task in ts: task.cancel()] *)
Definition cancel_each (ts : list task) (l : loop) : loop :=
  foldl (λ l' t, cancel t l') l ts.

(** What the program may do to the loop between two observations. *)
Inductive step : loop → loop → Prop :=
| step_launch c l :
    step l (launch_background_task c l).2
| step_create c l :
    step l (create_task c l).2
| step_add_callback t name l :
    step l (add_done_callback t (OtherCallback name) l)
| step_complete t o l :
    step l (complete t o l)
| step_callbacks t l :
    step l (run_done_callbacks t l)
| step_cancel t l :
    step l (cancel t l)
| step_print p l :
    step l (print p l).

(** The loop before any task was launched. *)
Definition initial (main : task) (c : coroutine) : loop :=
  Loop {[main := Task c Pending false []]} main ∅ [].

(** Every member of the set is a task whose callback that discards it is
    still to be called. *)
Definition tracked (l : loop) : Prop :=
  ∀ t, t ∈ background_tasks l →
       ∃ r, tasks l !! t = Some r ∧ DiscardBackgroundTask ∈ done_callbacks r.

(** *** [cancel_all_tasks] *)

(** [asyncio.all_tasks(loop)]: the tasks that are not done. *)
Definition all_tasks (l : loop) : gset task :=
  dom (filter (λ kv, is_pending kv.2 = true) (tasks l)).

(** How a call ends. *)
Inductive ending := Returns | Raises (e : exception) | Blocks.

(** [await asyncio.gather] over the tasks [ts] with [return_exceptions=True],
    when every task of [ts] has a cancellation pending: the loop runs each one until it is
    done and calls its done-callbacks, and the results come in the order of
    [ts].  [None]: some task never finishes. *)
Fixpoint gather (ts : list task) (l : loop) : option (loop * list outcome) :=
  match ts with
  | [] => Some (l, [])
  | t :: rest =>
      match tasks l !! t with
      | Some r =>
          match state r, on_cancel (coro r) with
          | Done o, _ =>
              '(l', os) ← gather rest l; Some (l', o :: os)
          | Pending, Finishes o =>
              '(l', os) ← gather rest (run_done_callbacks t (complete t o l));
              Some (l', o :: os)
          | Pending, KeepsRunning => None
          end
      | None => None
      end
  end.

(** What a task has become once it ended with [o] and its callbacks were
    called. *)
Definition drained (r : task_record) (o : outcome) : task_record :=
  Task (coro r) (Done o) (cancel_requested r) [].

(** [isinstance(r, Exception) and not isinstance(r, asyncio.CancelledError)] *)
Definition reportable (o : outcome) : option exception :=
  match o with
  | Failed e => if is_Exception e && negb (is_CancelledError e) then Some e else None
  | Returned => None
  end.

(** [for r in results: if ...: print(...)] *)
Definition report (results : list outcome) (l : loop) : loop :=
  foldl (λ l' o, match reportable o with
                 | Some e => print (TaskRaisedDuringShutdown e) l'
                 | None => l'
                 end) l results.

(** [cancel_all_tasks(loop)], run by the task [current_task l].  A task
    that cancelled itself gets [CancelledError] where it next suspends,
    which is the [await] if there is anything to wait for. *)
Definition cancel_all_tasks (l : loop) : loop * ending :=
  let self_cancelled := bool_decide (current_task l ∈ background_tasks l) in
  let l1 := cancel_each (elements (background_tasks l)) l in
  let pending := filter (λ t, t ≠ current_task l1) (elements (all_tasks l1)) in
  let l2 := cancel_each pending l1 in
  match gather pending l2 with
  | None => (l2, Blocks)
  | Some (l3, results) =>
      if self_cancelled && negb (bool_decide (pending = []))
      then (l3, Raises CancelledError)
      else (report results l3, Returns)
  end.

(** The tasks [cancel_all_tasks] waits for: those of the loop that are
    not done, but for the one that runs the call. *)
Definition awaited (l : loop) (t : task) (r : task_record) : Prop :=
  tasks l !! t = Some r ∧ is_pending r = true ∧ t ≠ current_task l.

(** *** [terminate_process_safely] *)

(** Time is counted in seconds from the call. *)

(** The child process, as far as its exit is concerned: when it exits by
    itself, how long after a terminate request it exits (or that it ignores
    the request), and how long after a kill it is gone.  A kill cannot be
    caught or ignored. *)
Record process := Process {
  natural_exit : option Q;
  terminate_latency : option Q;
  kill_latency : Q
}.

(** The calls made on the process object. *)
Inductive action :=
| Join (timeout : option Q)
| Terminate
| Kill.

(** The state of a run: the clock, the time at which the child exits given
    the signals sent so far, and the calls made. *)
Record run := Run {
  clock : Q;
  exits_at : option Q;
  trace : list action
}.

Definition start (p : process) : run :=
  Run 0 (natural_exit p) [].

(** The earlier of an exit already due and a new one. *)
Definition earliest (due : option Q) (new : Q) : option Q :=
  match due with
  | Some d => Some (if Qle_bool d new then d else new)
  | None => Some new
  end.

(** [proc.is_alive()] *)
Definition is_alive (r : run) : bool :=
  match exits_at r with
  | Some d => negb (Qle_bool d (clock r))
  | None => true
  end.

(** [proc.join(timeout)]: returns when the child has exited or the timeout
    has elapsed; without a timeout it returns only once the child has
    exited ([None]: never). *)
Definition join (timeout : option Q) (r : run) : option run :=
  let log := trace r ++ [Join timeout] in
  match exits_at r, timeout with
  | Some d, Some limit =>
      Some (Run (if Qle_bool d (clock r) then clock r
                 else if Qle_bool d (clock r + limit) then d
                 else clock r + limit)
                (exits_at r) log)
  | None, Some limit => Some (Run (clock r + limit) None log)
  | Some d, None =>
      Some (Run (if Qle_bool d (clock r) then clock r else d) (exits_at r) log)
  | None, None => None
  end.

(** [proc.terminate()] *)
Definition terminate (p : process) (r : run) : run :=
  Run (clock r)
      (match terminate_latency p with
       | Some latency => if is_alive r then earliest (exits_at r) (clock r + latency)
                         else exits_at r
       | None => exits_at r
       end)
      (trace r ++ [Terminate]).

(** [proc.kill()] *)
Definition kill (p : process) (r : run) : run :=
  Run (clock r)
      (if is_alive r then earliest (exits_at r) (clock r + kill_latency p)
       else exits_at r)
      (trace r ++ [Kill]).

Definition terminate_process_safely (p : process) : option run :=
  r ← join (Some 3%Q) (start p);
  r ← (if is_alive r
       then join (Some 2%Q) (terminate p r)
       else Some r);
  if is_alive r
  then join None (kill p r)
  else Some r.

(** The exit due at [due], if any, has happened by [deadline]. *)
Definition exited_by (due : option Q) (deadline : Q) : bool :=
  match due with
  | Some d => Qle_bool d deadline
  | None => false
  end.

(** The child exits by itself within the 3 seconds of grace. *)
Definition exits_in_grace (p : process) : bool :=
  exited_by (natural_exit p) 3%Q.

(** The child is gone 2 seconds after the terminate request made at 3
    seconds: it exited by itself by then, or it obeyed within 2 seconds. *)
Definition exits_on_request (p : process) : bool :=
  exited_by (natural_exit p) 5%Q || exited_by (terminate_latency p) 2%Q.

(** The three tiers. *)
Definition tier1 : list action := [Join (Some 3%Q)].
Definition tier2 : list action := [Terminate; Join (Some 2%Q)].
Definition tier3 : list action := [Kill; Join None].

End Runtime.

(** ** Sample data

    A small installation used to run the definitions above: one registered
    command, two connected peers of which the second has gone away. *)

Module Samples.
Import Py Connections.

Definition quoted (s : string) : string :=
  String (ascii_of_nat 34) s +:+ String (ascii_of_nat 34) EmptyString.

Definition member (key text : string) : string :=
  quoted key +:+ ":" +:+ text.

(** The request of the spec's round-trip example: an object with the keys
    [cmd], [result_id], [error_id] and [payload]. *)
Definition home_dir_request : string :=
  "{" +:+ member "cmd" (quoted "home_dir") +:+ "," +:+
  member "result_id" (quoted "r1") +:+ "," +:+
  member "error_id" (quoted "e1") +:+ "," +:+
  member "payload" "{}" +:+ "}".

Definition home_dir_fields : gmap string Json.value :=
  {[ "cmd" := Json.Str "home_dir"; "result_id" := Json.Str "r1";
     "error_id" := Json.Str "e1"; "payload" := Json.Object ∅ ]}.

(** The same request with a fifth key. *)
Definition request_with_extra_key : string :=
  "{" +:+ member "cmd" (quoted "home_dir") +:+ "," +:+
  member "result_id" (quoted "r1") +:+ "," +:+
  member "error_id" (quoted "e1") +:+ "," +:+
  member "payload" "{}" +:+ "," +:+
  member "trace" "true" +:+ "}".

Definition extra_key_fields : gmap string Json.value :=
  <["trace" := Json.Bool true]> home_dir_fields.

(** A request for a command nobody registered. *)
Definition unknown_request : string :=
  "{" +:+ member "cmd" (quoted "reboot") +:+ "," +:+
  member "result_id" (quoted "r2") +:+ "," +:+
  member "error_id" (quoted "e2") +:+ "," +:+
  member "payload" "{}" +:+ "}".

Definition unknown_fields : gmap string Json.value :=
  {[ "cmd" := Json.Str "reboot"; "result_id" := Json.Str "r2";
     "error_id" := Json.Str "e2"; "payload" := Json.Object ∅ ]}.

(** An object without [payload], a top-level array, and broken text. *)
Definition incomplete_request : string :=
  "{" +:+ member "cmd" (quoted "home_dir") +:+ "," +:+
  member "result_id" (quoted "r1") +:+ "," +:+
  member "error_id" (quoted "e1") +:+ "}".

Definition incomplete_fields : gmap string Json.value :=
  {[ "cmd" := Json.Str "home_dir"; "result_id" := Json.Str "r1";
     "error_id" := Json.Str "e1" ]}.

Definition array_request : string := "[1, 2]".

Definition broken_request : string := "{cmd".

(** [json.loads] on the texts above; any other text counts as malformed. *)
Definition loads (text : string) : result Json.value :=
  if decide (text = home_dir_request) then Return (Json.Object home_dir_fields)
  else if decide (text = request_with_extra_key) then Return (Json.Object extra_key_fields)
  else if decide (text = unknown_request) then Return (Json.Object unknown_fields)
  else if decide (text = incomplete_request) then Return (Json.Object incomplete_fields)
  else if decide (text = array_request)
       then Return (Json.Array [Json.Number "1"; Json.Number "2"])
  else Raise (JSONDecodeError (Msg "Expecting value" [text])).

(** The response to [home_dir_request], as JSON text. *)
Definition home_dir_response : string :=
  "{" +:+ member "result_id" (quoted "r1") +:+ "," +:+
  member "payload" (quoted "/home/orion") +:+ "}".

(** A dispatcher whose handlers all answer [home_dir_response] and leave
    the shared objects alone; responses are models, already rendered. *)
Definition collaborators : Collaborators := {|
  response := string;
  json_loads := loads;
  make_callback := λ _ _ _ _ w, (w, Return home_dir_response);
  is_BaseModel := λ _, true;
  model_dump_json := λ r, Return r;
  json_dumps := λ r, Return r
|}.

(** Peers 1 and 2 are connected; peer 2 has gone away without its handler
    having noticed yet. *)
Definition two_peers : world := {|
  connected_clients := {[1%positive; 2%positive]};
  event_callbacks := {[ "home_dir" := [Handler "home_dir"] ]};
  closed_peers := {[2%positive]};
  sends := [];
  log := [];
  invoked := []
|}.

End Samples.

Module RuntimeSamples.
Import Py Runtime.

(** The server loop ends with [CancelledError] when cancelled; the sender
    loop fails with another exception. *)
Definition server : coroutine :=
  Coroutine "create_websocket_server" (Finishes (Failed CancelledError)).

Definition sender : coroutine :=
  Coroutine "eventloop_sender"
            (Finishes (Failed (RuntimeError (Msg "channel closed" [])))).

Definition runtime : coroutine :=
  Coroutine "run_native_runtime" (Finishes (Failed CancelledError)).

(** The main task alone, then with the two background tasks of
    [run_native_runtime]. *)
Definition idle : loop := initial 1%positive runtime.

Definition serving : loop :=
  (launch_background_task sender (launch_background_task server idle).2).2.

(** The same loop while the server task is the one that runs: the
    running task is a background task. *)
Definition self_hosted : loop :=
  Loop (tasks serving) 2%positive (background_tasks serving) [].

(** A child that ignores the terminate request and is gone a tenth of a
    second after the kill. *)
Definition stubborn : process := Process None None (1 # 10).

(** A child that exits by itself after half a second. *)
Definition prompt : process := Process (Some (1 # 2)) None (1 # 10).

End RuntimeSamples.

(** ** More of [pyorion/utils.py] *)

Module Addresses.
Import Py Utils.

(** The character of the decimal digit [d]. *)
Definition digit_char (d : Z) : ascii := ascii_of_nat (48 + Z.to_nat d).
#[global] Arguments digit_char : simpl never.

(** The decimal digits of [n], the most significant first, put in front
    of [rest]; [fuel] bounds their number. *)
Fixpoint decimal (fuel : nat) (n : Z) (rest : string) : string :=
  match fuel with
  | O => rest
  | S fuel' =>
      if n <? 10 then String (digit_char n) rest
      else decimal fuel' (n / 10) (String (digit_char (n mod 10)) rest)
  end.

(** [str(n)] for an [int]: what the f-string field [{port}] renders. *)
Definition str_of_int (n : Z) : string :=
  if n <? 0
  then String "-" (decimal (S (Z.to_nat (Z.log2 (- n)))) (- n) EmptyString)
  else decimal (S (Z.to_nat (Z.log2 n))) n EmptyString.

(** [find_free_ports_and_create_addrs()], given the port the system
    assigned to the socket bound to port 0 ([sock.getsockname()[1]]). *)
Definition find_free_ports_and_create_addrs (assigned : Z) : string :=
  "127.0.0.1:" +:+ str_of_int assigned.

(** The text consists of decimal digits. *)
Fixpoint digits_only (s : string) : bool :=
  match s with
  | EmptyString => true
  | String c rest => bool_decide (is_Some (digit_value c)) && digits_only rest
  end.

End Addresses.

Module JsonSafe.

(** The Python objects [make_json_safe] tells apart.  A model carries the
    dict its [model_dump()] returns and a dataclass instance the dict
    [dataclasses.asdict] returns; a dict is the list of its items and a
    set the list of its elements, both in iteration order. *)
#[warnings="-register-all"]
Inductive pyobj : Type :=
| PNone
| PStr (s : string)
| PInt (n : Z)
| PFloat (repr : string)
| PBool (b : bool)
| PPath (text : string)                  (* a [pathlib.Path] *)
| PModel (dump : pyobj)                  (* a pydantic [BaseModel] *)
| PDataclass (fields : pyobj)            (* an instance of a dataclass *)
| PDict (items : list (pyobj * pyobj))
| PList (elements : list pyobj)
| PTuple (elements : list pyobj)
| PSet (elements : list pyobj)
| POther (name : string).                (* any other object *)

(** [d[k] = v] on a dict with string keys: a key that is present keeps
    its place. *)
Fixpoint dict_set (k : string) (v : pyobj) (d : list (string * pyobj))
    : list (string * pyobj) :=
  match d with
  | [] => [(k, v)]
  | (k', v') :: rest =>
      if decide (k = k') then (k', v) :: rest else (k', v') :: dict_set k v rest
  end.

(** The dict a comprehension builds from the items it yields in turn. *)
Definition dict_of (items : list (string * pyobj)) : list (string * pyobj) :=
  foldl (λ d kv, dict_set kv.1 kv.2 d) [] items.

Definition as_items (d : list (string * pyobj)) : list (pyobj * pyobj) :=
  map (λ kv, (PStr kv.1, kv.2)) d.

Section MakeJsonSafe.

(** The builtin [str]. *)
Variable str : pyobj → string.

Fixpoint make_json_safe (obj : pyobj) : pyobj :=
  match obj with
  | PNone => PNone
  | PStr _ | PInt _ | PFloat _ | PBool _ => obj
  | PPath _ => PStr (str obj)
  | PModel dump => dump
  | PDataclass fields => fields
  | PDict items =>
      PDict (as_items (dict_of (map (λ kv, match kv with
                                           | (k, v) => (str k, make_json_safe v)
                                           end) items)))
  | PList elements | PTuple elements | PSet elements =>
      PList (map make_json_safe elements)
  | POther _ => PStr (str obj)
  end.

Definition normalize_args (args : pyobj) : list pyobj :=
  match args with
  | PNone => []
  | PList elements => map make_json_safe elements
  | _ => [make_json_safe args]
  end.

End MakeJsonSafe.

Definition key_text (k : pyobj) : option string :=
  match k with
  | PStr s => Some s
  | _ => None
  end.

(** Built from [None], numbers, booleans and strings with lists and
    with dicts whose keys are distinct strings. *)
Fixpoint json_safe (obj : pyobj) : bool :=
  match obj with
  | PNone | PStr _ | PInt _ | PFloat _ | PBool _ => true
  | PList elements => forallb json_safe elements
  | PDict items =>
      forallb (λ kv, match kv with
                     | (k, v) => bool_decide (is_Some (key_text k)) && json_safe v
                     end) items
      && bool_decide (NoDup (omap (λ kv, key_text kv.1) items))
  | _ => false
  end.

(** The models and dataclass instances inside [obj] dump to JSON-safe
    data; the keys of its dicts are arbitrary. *)
Fixpoint convertible (obj : pyobj) : bool :=
  match obj with
  | PModel dump | PDataclass dump => json_safe dump
  | PDict items => forallb (λ kv, match kv with (_, v) => convertible v end) items
  | PList elements | PTuple elements | PSet elements => forallb convertible elements
  | _ => true
  end.

End JsonSafe.

(** ** More of [pyorion/runtime/runtime.py] *)

Module Orchestrator.
Import Py Runtime.


(** How [run_native_runtime] leaves things: the loop, the run of
    [terminate_process_safely] if it came to that, and how the call
    ends. *)
Record outcome := Outcome {
  final : loop;
  child : option run;
  how : ending
}.



End Orchestrator.

(** ** More sample data *)

Module MoreSamples.
Import Py Connections Samples JsonSafe Runtime RuntimeSamples Orchestrator.

(** [str] on the objects the samples use as keys and leaves. *)
Definition str_scalar (obj : pyobj) : string :=
  match obj with
  | PStr s => s
  | PInt n => Addresses.str_of_int n
  | PBool true => "True"
  | PBool false => "False"
  | PNone => "None"
  | PFloat repr => repr
  | PPath text => text
  | POther name => name
  | _ => "<object>"
  end.

(** A dict with an [int] key, a path, a tuple and a set. *)
Definition settings : pyobj :=
  PDict [ (PInt 1, PPath "/tmp/orion");
          (PStr "size", PTuple [PInt 900; PInt 700]);
          (PStr "tags", PSet [PStr "a"; PNone]) ].

(** A request whose [cmd] is a number. *)
Definition numeric_request : string :=
  "{" +:+ member "cmd" "7" +:+ "," +:+
  member "result_id" (quoted "r3") +:+ "," +:+
  member "error_id" (quoted "e3") +:+ "," +:+
  member "payload" "{}" +:+ "}".

Definition numeric_fields : gmap string Json.value :=
  {[ "cmd" := Json.Number "7"; "result_id" := Json.Str "r3";
     "error_id" := Json.Str "e3"; "payload" := Json.Object ∅ ]}.

(** A dispatcher whose handlers all fail, and a [json.loads] that knows
    [numeric_request] besides the texts of [Samples.loads]. *)
Definition refusing : Collaborators := {|
  response := string;
  json_loads := λ text,
    if decide (text = numeric_request) then Return (Json.Object numeric_fields)
    else loads text;
  make_callback := λ _ _ _ _ w, (w, Raise (RuntimeError (Msg "handler failed" [])));
  is_BaseModel := λ _, true;
  model_dump_json := λ r, Return r;
  json_dumps := λ r, Return r
|}.

(** Peers 1 and 2 are connected and both reachable. *)
Definition open_peers : world := {|
  connected_clients := {[1%positive; 2%positive]};
  event_callbacks := {[ "home_dir" := [Handler "home_dir"] ]};
  closed_peers := ∅;
  sends := [];
  log := [];
  invoked := []
|}.


End MoreSamples.

(** * Properties *)

(** ** [split_address] *)

Section SplitAddressFacts.
Import Py Utils.

Variable int : string → option Z.

Lemma contains_append c (a b : string) :
  contains c (a +:+ b) = contains c a || contains c b.
Proof.
  induction a as [|x a IH]; simpl; [done|].
  rewrite IH. by rewrite orb_assoc.
Qed.

Lemma rsplit_last_None sep s :
  rsplit_last sep s = None ↔ contains sep s = false.
Proof.
  induction s as [|c s IH]; simpl; [done|].
  destruct (rsplit_last sep s) as [[before after]|] eqn:Hs.
  - split; [done|]. intros [_ Hc]%orb_false_iff.
    apply IH in Hc. discriminate.
  - destruct (Ascii.eqb c sep); simpl; [done|].
    split; [intros _; by apply IH | done].
Qed.

Lemma rsplit_last_Some sep s before after :
  rsplit_last sep s = Some (before, after) →
  s = before +:+ String sep after ∧ contains sep after = false.
Proof.
  revert before. induction s as [|c s IH]; intros before; simpl; [done|].
  destruct (rsplit_last sep s) as [[b a]|] eqn:Hs.
  - intros [= <- <-]. destruct (IH b eq_refl) as [-> Ha]. done.
  - destruct (Ascii.eqb c sep) eqn:Hc; [|done].
    intros [= <- <-]. apply Ascii.eqb_eq in Hc as ->.
    split; [done | by apply rsplit_last_None].
Qed.

Lemma rsplit_last_at sep before after :
  contains sep after = false →
  rsplit_last sep (before +:+ String sep after) = Some (before, after).
Proof.
  intros Ha. induction before as [|c b IH]; simpl.
  - apply rsplit_last_None in Ha as ->. by rewrite Ascii.eqb_refl.
  - by rewrite IH.
Qed.

Lemma splits_at_last_colon_contains address host port_str :
  splits_at_last_colon address host port_str → contains ":" address = true.
Proof.
  intros [-> _]. rewrite contains_append. simpl. by rewrite orb_true_r.
Qed.

Lemma splits_at_last_colon_rsplit address host port_str :
  splits_at_last_colon address host port_str ↔
  rsplit1 ":" address = [host; port_str].
Proof.
  unfold rsplit1. split.
  - intros [-> Hp]. by rewrite rsplit_last_at.
  - destruct (rsplit_last ":" address) as [[b a]|] eqn:Hs; [|done].
    intros [= <- <-]. by apply rsplit_last_Some.
Qed.

Lemma splits_at_last_colon_unique address h1 p1 h2 p2 :
  splits_at_last_colon address h1 p1 →
  splits_at_last_colon address h2 p2 →
  h1 = h2 ∧ p1 = p2.
Proof.
  intros H1%splits_at_last_colon_rsplit H2%splits_at_last_colon_rsplit.
  rewrite H1 in H2. by injection H2.
Qed.

Lemma splits_at_last_colon_exists address :
  contains ":" address = true →
  ∃ host port_str, splits_at_last_colon address host port_str.
Proof.
  intros Hc. destruct (rsplit_last ":" address) as [[b a]|] eqn:Hs.
  - exists b, a. by apply rsplit_last_Some.
  - apply rsplit_last_None in Hs. congruence.
Qed.

Lemma parse_port_outcome port_str handler_msg :
  port_outcome int port_str
    (except_ValueError (parse_port int port_str) (λ _, ValueError handler_msg)).
Proof.
  unfold parse_port, int_call.
  destruct (int port_str) as [port|] eqn:Hint; simpl.
  - destruct (0 <=? port) eqn:H0; destruct (port <=? 65535) eqn:H1; simpl;
      first [ apply (port_accepted _ _ port); [done | lia]
            | apply (port_out_of_range _ _ port); [done | lia] ].
  - by apply port_not_integer.
Qed.

Lemma split_address_outcome address :
  address_outcome int address (split_address int address).
Proof.
  unfold split_address.
  destruct (contains ":" address) eqn:Hc; simpl; [|by constructor].
  destruct (splits_at_last_colon_exists _ Hc) as (host & port_str & Hsplit).
  pose proof Hsplit as ->%splits_at_last_colon_rsplit.
  destruct (decide (host = EmptyString)) as [Hh|Hh]; [by eapply address_empty_host|].
  destruct (decide (port_str = EmptyString)) as [Hp|Hp]; [by eapply address_empty_port|].
  destruct (parse_port_outcome port_str
              (Msg "Invalid port: {!r}. Must be an integer." [port_str]))
    as [m Hi|port m Hi Hr|port Hi Hr]; simpl.
  - eapply address_bad_port; eauto.
  - eapply address_bad_port; eauto.
  - by eapply address_accepted.
Qed.

Lemma address_outcome_raise address e :
  address_outcome int address (Raise e) →
  (∃ m, e = ValueError m) ∧ invalid_address int address.
Proof.
  unfold invalid_address.
  inversion 1; subst; (split; [by eexists|]); eauto 10.
Qed.

Lemma address_outcome_return address host port :
  address_outcome int address (Return (host, port)) →
  ¬ invalid_address int address ∧
  ∃ port_str, splits_at_last_colon address host port_str ∧ int port_str = Some port.
Proof.
  inversion 1 as [| | | |? port_str ? Hsplit Hh Hp Hi Hr]; subst.
  split; [|by eauto].
  intros [Hc|(h & p & Hsplit' & Hbad)].
  - apply splits_at_last_colon_contains in Hsplit. congruence.
  - destruct (splits_at_last_colon_unique _ _ _ _ _ Hsplit Hsplit') as [<- <-].
    destruct Hbad as [?|[?|[?|(q & ? & ?)]]]; [done|done|congruence|].
    assert (q = port) as -> by congruence. done.
Qed.

(** C10.  [split_address] raises [ValueError] exactly on the addresses
    that have no colon, or an empty part before or after the last colon,
    or a part after it that is not an integer or is an integer outside
    0..65535; on every other address it returns the text before the last
    colon with the integer value of the text after it; it raises no other
    exception. *)
Theorem split_address_spec (address : string) :
  ((∃ m, split_address int address = Raise (ValueError m)) ↔
   invalid_address int address) ∧
  (¬ invalid_address int address →
   ∃ host port_str port,
     splits_at_last_colon address host port_str ∧
     int port_str = Some port ∧
     split_address int address = Return (host, port)) ∧
  (∀ e, split_address int address = Raise e → ∃ m, e = ValueError m).
Proof.
  pose proof (split_address_outcome address) as Hout.
  destruct (split_address int address) as [[host port]|e] eqn:Hres.
  - apply address_outcome_return in Hout as (Hvalid & port_str & Hsplit & Hi).
    split_and!.
    + split; [by intros [m ?] | done].
    + intros _. by exists host, port_str, port.
    + done.
  - apply address_outcome_raise in Hout as ([m ->] & Hinv).
    split_and!.
    + split; [done | by exists m].
    + done.
    + intros e [= <-]. by exists m.
Qed.

End SplitAddressFacts.

(** The accepted and the rejected, on the ASCII [int]. *)
Example split_address_localhost :
  Utils.split_address Utils.int_of_str "127.0.0.1:8765" = Py.Return ("127.0.0.1", 8765).
Proof. reflexivity. Qed.

Example split_address_last_colon :
  Utils.split_address Utils.int_of_str "::1:80" = Py.Return ("::1", 80).
Proof. reflexivity. Qed.

Example split_address_port_too_large :
  ∃ m, Utils.split_address Utils.int_of_str "localhost:65536" = Py.Raise (Py.ValueError m).
Proof. by eexists. Qed.

(** ** The command line *)

Section CliFacts.
Import Py Cli.

Lemma remove_pycash_not_in_utils : "remove_pycash" ∉ utils_namespace.
Proof. apply (bool_decide_unpack _). by vm_compute. Qed.

(** With the helper in place, the subcommand would call it and exit with
    status 0. *)
Lemma cli_remove_pycash : cli ["remove-pycash"] = (0, [Call "remove_pycash"]).
Proof. reflexivity. Qed.

(** C9.  [python -m pyorion remove-pycash], like every other invocation,
    stops at the import of [remove_pycash] from [pyorion.utils], which
    does not define it: the status is 1 and no helper is called. *)
Theorem main_stops_at_import (argv : list string) : main argv = (1, []).
Proof. reflexivity. Qed.

End CliFacts.

(** ** The relay *)

Section RelayFacts.
Import Py Connections.
Context `{Collaborators}.

(** *** Sending and broadcasting *)

Lemma send_spec c text w :
  send c text w =
    (record_send (send_result w text c) w,
     if bool_decide (c ∈ closed_peers w) then Raise ConnectionClosed else Return tt).
Proof.
  unfold send, send_result.
  destruct (decide (c ∈ closed_peers w)) as [Hc|Hc].
  - by rewrite (bool_decide_eq_true_2 _ Hc), (bool_decide_eq_false_2 (c ∉ _)); [|tauto].
  - by rewrite (bool_decide_eq_false_2 _ Hc), (bool_decide_eq_true_2 (c ∉ _)).
Qed.

(** All sends are made, whatever their results. *)
Lemma gather_sends_world clients text w :
  (gather_sends clients text w).1 =
    World (connected_clients w) (event_callbacks w) (closed_peers w)
          (sends w ++ (send_result w text <$> clients)) (log w) (invoked w).
Proof.
  revert w. induction clients as [|c rest IH]; intros w; simpl.
  - rewrite app_nil_r. by destruct w.
  - rewrite send_spec.
    destruct (gather_sends rest text (record_send (send_result w text c) w))
      as [w2 r2] eqn:Hrest.
    pose proof (IH (record_send (send_result w text c) w)) as Hw.
    rewrite Hrest in Hw. simpl in *. subst w2.
    by rewrite <- app_assoc.
Qed.

(** The call raises exactly when some send does, and then what it raises
    is [ConnectionClosed]. *)
Lemma gather_sends_result clients text w :
  (Forall (λ c, c ∉ closed_peers w) clients ∧
   (gather_sends clients text w).2 = Return tt) ∨
  (Exists (λ c, c ∈ closed_peers w) clients ∧
   (gather_sends clients text w).2 = Raise ConnectionClosed).
Proof.
  revert w. induction clients as [|c rest IH]; intros w; simpl.
  - left. by split.
  - rewrite send_spec.
    destruct (gather_sends rest text (record_send (send_result w text c) w))
      as [w2 r2] eqn:Hrest.
    pose proof (IH (record_send (send_result w text c) w)) as Hr.
    rewrite Hrest in Hr. simpl in *.
    destruct (decide (c ∈ closed_peers w)) as [Hc|Hc].
    + rewrite (bool_decide_eq_true_2 _ Hc). right. split; [by left | done].
    + rewrite (bool_decide_eq_false_2 _ Hc).
      destruct Hr as [[Hall ->]|[Hex ->]].
      * left. split; [by constructor | done].
      * right. split; [by right | done].
Qed.

Lemma broadcast_world text w :
  (broadcast text w).1 =
    World (connected_clients w) (event_callbacks w) (closed_peers w)
          (sends w ++ (send_result w text <$> elements (connected_clients w)))
          (log w) (invoked w).
Proof. apply gather_sends_world. Qed.

Lemma broadcast_result text w :
  ((∀ c, c ∈ connected_clients w → c ∉ closed_peers w) ∧
   (broadcast text w).2 = Return tt) ∨
  ((∃ c, c ∈ connected_clients w ∧ c ∈ closed_peers w) ∧
   (broadcast text w).2 = Raise ConnectionClosed).
Proof.
  unfold broadcast.
  destruct (gather_sends_result (elements (connected_clients w)) text w)
    as [[Hall Hr]|[Hex Hr]]; [left | right]; (split; [|done]).
  - intros c Hc. rewrite Forall_forall in Hall. apply Hall.
    by apply elem_of_elements.
  - apply Exists_exists in Hex as (c & Hc & Hclosed).
    exists c. split; [by apply elem_of_elements | done].
Qed.

(** Every member of the set is sent the text, and nobody else. *)
Lemma broadcast_recipients text w (r : send_record) :
  r ∈ send_result w text <$> elements (connected_clients w) ↔
  ∃ c, c ∈ connected_clients w ∧ r = send_result w text c.
Proof.
  rewrite list_elem_of_fmap. split.
  - intros (c & -> & Hc). exists c. split; [by apply elem_of_elements | done].
  - intros (c & Hc & ->). exists c. split; [done | by apply elem_of_elements].
Qed.

(** *** The turns of the receive loop *)

Lemma has_envelope_keys_true fields :
  has_envelope_keys fields = true ↔ ∀ k, k ∈ envelope_keys → is_Some (fields !! k).
Proof.
  unfold has_envelope_keys, envelope_keys. simpl.
  rewrite !andb_true_iff, !bool_decide_eq_true. split.
  - intros (? & ? & ? & ? & _) k Hk.
    repeat (apply elem_of_cons in Hk as [->|Hk]; [done|]).
    by apply elem_of_nil in Hk.
  - intros Hall. split_and!; try done; apply Hall; set_solver.
Qed.

Lemma has_envelope_keys_false fields k :
  k ∈ envelope_keys → fields !! k = None → has_envelope_keys fields = false.
Proof.
  intros Hk Hnone. apply not_true_iff_false. intros Hall.
  rewrite has_envelope_keys_true in Hall.
  destruct (Hall k Hk) as [v Hv]. congruence.
Qed.

Lemma envelope_has_keys message call fields :
  json_loads message = Return (Json.Object fields) →
  envelope message call →
  has_envelope_keys fields = true ∧
  getitem fields "cmd" = Return (inv_cmd call) ∧
  getitem fields "result_id" = Return (inv_result_id call) ∧
  getitem fields "error_id" = Return (inv_error_id call) ∧
  getitem fields "payload" = Return (inv_payload call).
Proof.
  intros Hload (fields' & Hload' & Hc & Hr & He & Hp).
  assert (fields' = fields) as -> by congruence.
  unfold getitem. rewrite Hc, Hr, He, Hp. split; [|done].
  unfold has_envelope_keys. simpl. rewrite Hc, Hr, He, Hp.
  by rewrite !(bool_decide_eq_true_2 (is_Some (Some _))).
Qed.

(** A turn of the loop ends the loop only by raising. *)
Lemma receive_next websocket message rest ending w w1 :
  process_message websocket message w = (w1, Return tt) →
  receive websocket (message :: rest) ending w = receive websocket rest ending w1.
Proof. intros Hturn. simpl. by rewrite Hturn. Qed.


(** An envelope for a registered command that the dispatcher answers: the
    call is recorded, the answer is broadcast, a failed send is logged. *)
Lemma process_dispatched websocket message call w w1 text :
  envelope message call →
  registered (inv_cmd call) w →
  answers call w w1 text →
  process_message websocket message w =
    let w2 := (broadcast text (set_invoked (invoked w ++ [call]) w1)).1 in
    match (broadcast text (set_invoked (invoked w ++ [call]) w1)).2 with
    | Return _ => (w2, Return tt)
    | Raise e =>
        (emit (Log ERROR "Unexpected error handling message: %s"
                   [ArgException e] true) w2,
         Return tt)
    end.
Proof.
  intros Henv (name & Hcmd & Hreg) (r & Hcall & Htext).
  pose proof Henv as (fields & Hload & _).
  destruct (envelope_has_keys _ _ _ Hload Henv) as (Hkeys & Hc & Hr & He & Hp).
  unfold process_message, message_body.
  rewrite Hload, Hkeys, Hc, Hr, He, Hp.
  assert (not_registered (inv_cmd call) w = Return false) as ->.
  { unfold not_registered. rewrite Hcmd. simpl.
    rewrite bool_decide_eq_false_2; [done|].
    destruct Hreg as [hs Hhs]. congruence. }
  rewrite Hcall, Htext. destruct call as [c rid eid body]. simpl in *.
  set (w1' := set_invoked _ w1).
  destruct (broadcast_result text w1') as [[_ Hres]|[_ Hres]];
    destruct (broadcast text w1') as [w2 res]; simpl in *; by subst res.
Qed.

(** A message that is no envelope: one warning or error record. *)
Lemma process_malformed websocket message w :
  malformed message →
  ∃ record,
    (log_level record = WARNING ∨ log_level record = ERROR) ∧
    process_message websocket message w = (emit record w, Return tt).
Proof.
  unfold process_message, message_body.
  intros [(m & Hload)|[(v & Hload & Hdict)|(fields & k & Hload & Hk & Hnone)]];
    rewrite Hload.
  - eexists. split; [|simpl; reflexivity]. by right.
  - destruct v; try discriminate; (eexists; split; [|reflexivity]); by left.
  - rewrite (has_envelope_keys_false _ _ Hk Hnone).
    eexists. split; [|reflexivity]. by left.
Qed.

End RelayFacts.

(** ** What the relay guarantees *)

Section RelayClaims.
Import Py Connections.
Context `{Collaborators}.

(** [emit] and [broadcast] leave the relay's record of calls alone. *)
Lemma broadcast_invoked text w : invoked (broadcast text w).1 = invoked w.
Proof. by rewrite broadcast_world. Qed.

Lemma handler_discards_itself websocket messages ending w :
  websocket ∉ connected_clients
    (handle_frontend_connections websocket messages ending w).1.
Proof.
  unfold handle_frontend_connections.
  destruct (receive _ _ _ _) as [w1 r].
  destruct (match r with Raise ConnectionClosed => _ | _ => _ end) as [w2 r2].
  simpl. intros [_ Hout]%elem_of_difference. apply Hout. by apply elem_of_singleton.
Qed.




(** C5.  When a registered command has been dispatched and answered, the
    answer is sent to each member of the connected-client set as it is at
    that moment, whoever the sender of the request was, and to nobody
    else. *)
Theorem response_is_broadcast_to_every_client
    (websocket : client) (message : string) (call : invocation)
    (w w1 : world) (text : string) :
  envelope message call →
  registered (inv_cmd call) w →
  answers call w w1 text →
  ∃ w' new,
    process_message websocket message w = (w', Return tt) ∧
    sends w' = sends w1 ++ new ∧
    (∀ c, c ∈ connected_clients w1 → send_result w1 text c ∈ new) ∧
    (∀ c, c ∈ connected_clients w1 → c ∉ closed_peers w1 → Sent c text true ∈ new) ∧
    (∀ r, r ∈ new → sent_to r ∈ connected_clients w1 ∧ sent_text r = text).
Proof.
  intros Henv Hreg Hans.
  pose proof (process_dispatched websocket _ _ _ _ _ Henv Hreg Hans) as Hturn.
  simpl in Hturn. set (w1' := set_invoked _ w1) in Hturn.
  pose proof (broadcast_world text w1') as Hw.
  assert (∃ w', process_message websocket message w = (w', Return tt) ∧
                sends w' = sends (broadcast text w1').1) as (w' & Hw' & Hsends).
  { destruct ((broadcast text w1').2); rewrite Hturn; eexists; by split. }
  exists w', (send_result w1 text <$> elements (connected_clients w1)).
  split; [done|]. split; [by rewrite Hsends, Hw|].
  split_and!.
  - intros c Hc. apply (broadcast_recipients text w1). by exists c.
  - intros c Hc Hopen.
    replace (Sent c text true) with (send_result w1 text c).
    + apply (broadcast_recipients text w1). by exists c.
    + unfold send_result. by rewrite bool_decide_eq_true_2.
  - intros r (c & Hc & ->)%(broadcast_recipients text w1). done.
Qed.

(** C1, as the code has it.  When the answer to a dispatched command is
    broadcast and the send to one member of the set fails, every member
    whose connection is open is still sent the answer; the failure is
    logged and nothing is raised; the broadcast leaves the set as it is,
    so the member whose send failed is still in it.  A connection leaves
    the set when its own handler ends. *)
Theorem failed_send_spares_the_others
    (websocket : client) (message : string) (call : invocation)
    (w w1 : world) (text : string) (bad : client) :
  envelope message call →
  registered (inv_cmd call) w →
  answers call w w1 text →
  bad ∈ connected_clients w1 →
  bad ∈ closed_peers w1 →
  ∃ w' new,
    process_message websocket message w = (w', Return tt) ∧
    sends w' = sends w1 ++ new ∧
    (∀ c, c ∈ connected_clients w1 → c ∉ closed_peers w1 → Sent c text true ∈ new) ∧
    Sent bad text false ∈ new ∧
    log w' = log w1 ++
      [Log ERROR "Unexpected error handling message: %s"
           [ArgException ConnectionClosed] true] ∧
    connected_clients w' = connected_clients w1 ∧
    bad ∈ connected_clients w' ∧
    ∀ messages ending w0,
      websocket ∉ connected_clients
        (handle_frontend_connections websocket messages ending w0).1.
Proof.
  intros Henv Hreg Hans Hbad Hclosed.
  pose proof (process_dispatched websocket _ _ _ _ _ Henv Hreg Hans) as Hturn.
  simpl in Hturn. set (w1' := set_invoked _ w1) in Hturn.
  pose proof (broadcast_world text w1') as Hw.
  destruct (broadcast_result text w1') as [[Hall _]|[_ Hres]].
  { destruct (Hall bad Hbad Hclosed). }
  rewrite Hres in Hturn.
  eexists _, (send_result w1 text <$> elements (connected_clients w1)).
  split; [exact Hturn|]. simpl. rewrite Hw. simpl.
  split_and!; try done.
  - intros c Hc Hopen.
    replace (Sent c text true) with (send_result w1 text c).
    + apply (broadcast_recipients text w1). by exists c.
    + unfold send_result. by rewrite bool_decide_eq_true_2.
  - replace (Sent bad text false) with (send_result w1 text bad).
    + apply (broadcast_recipients text w1). by exists bad.
    + unfold send_result. rewrite bool_decide_eq_false_2; [done|]. tauto.
  - intros messages ending w0. apply handler_discards_itself.
Qed.

(** C4, as the code has it.  A message that parses as an object is
    dispatched only if the object has the keys [cmd], [result_id],
    [error_id] and [payload]; and an object that has them and names a
    registered command is dispatched with the values under these four
    keys, whatever other keys it carries. *)
Theorem dispatch_needs_the_four_keys_only
    (websocket : client) (message : string)
    (fields : gmap string Json.value) (w : world) :
  json_loads message = Return (Json.Object fields) →
  (dispatched w (process_message websocket message w).1 →
   ∀ k, k ∈ envelope_keys → is_Some (fields !! k)) ∧
  (∀ call, envelope message call → registered (inv_cmd call) w →
           invoked (process_message websocket message w).1 = invoked w ++ [call]).
Proof.
  intros Hload. split.
  - intros [call Hcall].
    destruct (has_envelope_keys fields) eqn:Hkeys;
      [by apply has_envelope_keys_true|].
    unfold process_message, message_body in Hcall.
    rewrite Hload, Hkeys in Hcall. simpl in Hcall.
    apply (f_equal length) in Hcall. rewrite length_app in Hcall.
    simpl in Hcall. lia.
  - intros call Henv (name & Hcmd & Hreg).
    destruct (envelope_has_keys _ _ _ Hload Henv) as (Hkeys & Hc & Hr & He & Hp).
    unfold process_message, message_body.
    rewrite Hload, Hkeys, Hc, Hr, He, Hp.
    assert (not_registered (inv_cmd call) w = Return false) as ->.
    { unfold not_registered. rewrite Hcmd. simpl.
      rewrite bool_decide_eq_false_2; [done|].
      destruct Hreg as [hs Hhs]. congruence. }
    destruct call as [c rid eid body]. simpl.
    destruct (make_callback c rid eid body w) as [w1 [r|e]].
    + destruct (response_msg r) as [text|e].
      * pose proof (broadcast_invoked text
                      (set_invoked (invoked w ++ [Invocation c rid eid body]) w1)) as Hi.
        destruct (broadcast _ _) as [w2 [[]|e]]; simpl in *;
          repeat case_match; simplify_eq; simpl; done.
      * repeat case_match; simplify_eq; simpl; done.
    + repeat case_match; simplify_eq; simpl; done.
Qed.

End RelayClaims.

(** *** The relay on the sample installation *)

Section RelaySamples.
Import Py Connections Samples.

Lemma home_dir_envelope :
  envelope (H := collaborators) home_dir_request
    (Invocation (Json.Str "home_dir") (Json.Str "r1") (Json.Str "e1") (Json.Object ∅)).
Proof. exists home_dir_fields. by vm_compute. Qed.

Lemma home_dir_registered :
  registered (Json.Str "home_dir") two_peers.
Proof. exists "home_dir". split; [done | by eexists]. Qed.

Lemma home_dir_answered call :
  answers (H := collaborators) call two_peers two_peers home_dir_response.
Proof. by exists home_dir_response. Qed.

(** Peer 1 sends [home_dir_request] while peer 2, still in the set, has
    gone away: the send to peer 2 fails, and peer 2 is in the set
    afterwards. *)
Lemma failed_peer_stays_connected :
  let w' := (process_message (H := collaborators) 1%positive
               home_dir_request two_peers).1 in
  Sent 2%positive home_dir_response false ∈ sends w' ∧
  2%positive ∈ connected_clients w'.
Proof.
  split.
  - vm_compute. constructor.
  - apply (bool_decide_unpack _). by vm_compute.
Qed.

(** An object with a fifth key, [trace], besides the four of an envelope
    is dispatched and answered like any other request. *)
Lemma extra_key_is_dispatched :
  let w' := (process_message (H := collaborators) 1%positive
               request_with_extra_key two_peers).1 in
  json_loads (Collaborators := collaborators) request_with_extra_key
    = Return (Json.Object extra_key_fields) ∧
  extra_key_fields !! "trace" = Some (Json.Bool true) ∧
  invoked w' = [Invocation (Json.Str "home_dir") (Json.Str "r1") (Json.Str "e1")
                           (Json.Object ∅)] ∧
  Sent 1%positive home_dir_response true ∈ sends w'.
Proof.
  split_and!; try by vm_compute.
  vm_compute. repeat constructor.
Qed.

Lemma extra_key_envelope :
  envelope (H := collaborators) request_with_extra_key
    (Invocation (Json.Str "home_dir") (Json.Str "r1") (Json.Str "e1") (Json.Object ∅)).
Proof. exists extra_key_fields. by vm_compute. Qed.


Lemma broken_request_malformed : malformed (H := collaborators) broken_request.
Proof. left. by exists (Msg "Expecting value" [broken_request]). Qed.

Lemma array_request_malformed : malformed (H := collaborators) array_request.
Proof. right. left. by eexists. Qed.

Lemma incomplete_request_malformed : malformed (H := collaborators) incomplete_request.
Proof.
  right. right. exists incomplete_fields, "payload".
  split_and!; [done | | done]. unfold envelope_keys. set_solver.
Qed.



(** The answer to peer 1's request goes to peer 1 and to peer 2. *)
Lemma broadcast_witness :
  envelope (H := collaborators) home_dir_request
    (Invocation (Json.Str "home_dir") (Json.Str "r1") (Json.Str "e1") (Json.Object ∅)) ∧
  registered (Json.Str "home_dir") two_peers ∧
  ∃ w' new,
    process_message (H := collaborators) 1%positive home_dir_request two_peers
      = (w', Return tt) ∧
    sends w' = sends two_peers ++ new ∧
    send_result two_peers home_dir_response 1%positive ∈ new ∧
    send_result two_peers home_dir_response 2%positive ∈ new.
Proof.
  split; [exact home_dir_envelope|]. split; [exact home_dir_registered|].
  destruct (response_is_broadcast_to_every_client (H := collaborators)
              1%positive home_dir_request _ two_peers two_peers home_dir_response
              home_dir_envelope home_dir_registered (home_dir_answered _))
    as (w' & new & Hturn & Hsends & Hall & _).
  exists w', new. split_and!; [done | done | |]; apply Hall;
    apply (bool_decide_unpack _); by vm_compute.
Defined.

(** The send to peer 2 fails; peer 1 is served, and peer 2 stays. *)
Lemma failed_send_witness :
  2%positive ∈ connected_clients two_peers ∧
  2%positive ∈ closed_peers two_peers ∧
  ∃ w' new,
    process_message (H := collaborators) 1%positive home_dir_request two_peers
      = (w', Return tt) ∧
    sends w' = sends two_peers ++ new ∧
    Sent 1%positive home_dir_response true ∈ new ∧
    Sent 2%positive home_dir_response false ∈ new ∧
    2%positive ∈ connected_clients w'.
Proof.
  assert (H2 : 2%positive ∈ connected_clients two_peers)
    by (apply (bool_decide_unpack _); by vm_compute).
  assert (H2' : 2%positive ∈ closed_peers two_peers)
    by (apply (bool_decide_unpack _); by vm_compute).
  split; [exact H2|]. split; [exact H2'|].
  destruct (failed_send_spares_the_others (H := collaborators)
              1%positive home_dir_request _ two_peers two_peers home_dir_response
              2%positive home_dir_envelope home_dir_registered (home_dir_answered _)
              H2 H2')
    as (w' & new & Hturn & Hsends & Hothers & Hbad & _ & _ & Hstays & _).
  exists w', new. split_and!; try done.
  apply Hothers; apply (bool_decide_unpack _); by vm_compute.
Defined.

(** The object with the fifth key is dispatched with its four values. *)
Lemma four_keys_witness :
  json_loads (Collaborators := collaborators) request_with_extra_key
    = Return (Json.Object extra_key_fields) ∧
  invoked (process_message (H := collaborators) 1%positive
             request_with_extra_key two_peers).1
    = invoked two_peers ++
      [Invocation (Json.Str "home_dir") (Json.Str "r1") (Json.Str "e1") (Json.Object ∅)].
Proof.
  split; [reflexivity|].
  apply (dispatch_needs_the_four_keys_only (H := collaborators)
           1%positive request_with_extra_key extra_key_fields two_peers eq_refl).
  - exact extra_key_envelope.
  - exact home_dir_registered.
Defined.

End RelaySamples.

(** ** Background tasks *)

Section BackgroundTaskFacts.
Import Py Runtime.

Lemma fresh_task_unused l : tasks l !! fresh (dom (tasks l)) = None.
Proof. apply not_elem_of_dom, is_fresh. Qed.

Lemma create_task_spec c l :
  create_task c l =
    (fresh (dom (tasks l)),
     set_tasks (<[fresh (dom (tasks l)) := Task c Pending false []]> (tasks l)) l).
Proof. reflexivity. Qed.

(** The three steps of [launch_background_task], in one. *)
Lemma launch_background_task_spec c l :
  launch_background_task c l =
    (fresh (dom (tasks l)),
     Loop (<[fresh (dom (tasks l)) := Task c Pending false [DiscardBackgroundTask]]>
             (tasks l))
          (current_task l)
          ({[fresh (dom (tasks l))]} ∪ background_tasks l)
          (stdout l)).
Proof.
  unfold launch_background_task, create_task, add_done_callback,
    set_background_tasks, set_tasks. simpl.
  by rewrite alter_insert_eq.
Qed.

(** Calling the callbacks of a finished task empties its list and, if the
    discarding callback is among them, takes the task out of the set. *)
Lemma run_callbacks_fold t cbs l :
  foldl (λ l' cb, run_callback t cb l') l cbs =
    Loop (tasks l) (current_task l)
         (if bool_decide (DiscardBackgroundTask ∈ cbs)
          then background_tasks l ∖ {[t]} else background_tasks l)
         (stdout l).
Proof.
  revert l. induction cbs as [|cb cbs IH]; intros l; simpl.
  - by destruct l.
  - rewrite IH. destruct cb as [|name]; simpl.
    + f_equal. case_bool_decide; set_solver.
    + f_equal.
      rewrite (bool_decide_ext (DiscardBackgroundTask ∈ OtherCallback name :: cbs)
                 (DiscardBackgroundTask ∈ cbs)); [done|].
      split; [by intros [?|?]%elem_of_cons | by constructor].
Qed.

Lemma run_done_callbacks_spec t l :
  run_done_callbacks t l =
    match tasks l !! t with
    | Some r =>
        if is_pending r then l
        else Loop (<[t := Task (coro r) (state r) (cancel_requested r) []]> (tasks l))
                  (current_task l)
                  (if bool_decide (DiscardBackgroundTask ∈ done_callbacks r)
                   then background_tasks l ∖ {[t]} else background_tasks l)
                  (stdout l)
    | None => l
    end.
Proof.
  unfold run_done_callbacks. destruct (tasks l !! t) as [r|]; [|done].
  destruct (is_pending r); [done|]. by rewrite run_callbacks_fold.
Qed.

Lemma run_done_callbacks_shrinks t l :
  background_tasks (run_done_callbacks t l) ⊆ background_tasks l.
Proof.
  rewrite run_done_callbacks_spec.
  destruct (tasks l !! t) as [r|]; [|done].
  destruct (is_pending r); [done|]. simpl.
  case_bool_decide; set_solver.
Qed.

Lemma tracked_initial main c : tracked (initial main c).
Proof. intros t Ht. simpl in Ht. set_solver. Qed.

Lemma tracked_launch c l : tracked l → tracked (launch_background_task c l).2.
Proof.
  intros Hl t. rewrite launch_background_task_spec. simpl.
  destruct (decide (t = fresh (dom (tasks l)))) as [->|Hne].
  - intros _. rewrite lookup_insert_eq. eexists. split; [done|]. by constructor.
  - intros Ht. rewrite lookup_insert_ne by done. apply Hl. set_solver.
Qed.

Lemma tracked_create c l : tracked l → tracked (create_task c l).2.
Proof.
  intros Hl t Ht. simpl in *. destruct (Hl t Ht) as (r & Hr & Hcb).
  exists r. split; [|done]. rewrite lookup_insert_ne; [done|].
  intros <-. rewrite fresh_task_unused in Hr. discriminate.
Qed.

Lemma tracked_add_callback t cb l : tracked l → tracked (add_done_callback t cb l).
Proof.
  intros Hl t' Ht'. simpl in *. destruct (Hl t' Ht') as (r & Hr & Hcb).
  destruct (decide (t = t')) as [->|Hne].
  - rewrite lookup_alter_eq, Hr. simpl. eexists. split; [done|]. simpl.
    apply elem_of_app. by left.
  - rewrite lookup_alter_ne by done. by exists r.
Qed.

Lemma tracked_complete t o l : tracked l → tracked (complete t o l).
Proof.
  intros Hl t' Ht'. simpl in *. destruct (Hl t' Ht') as (r & Hr & Hcb).
  destruct (decide (t = t')) as [->|Hne].
  - rewrite lookup_alter_eq, Hr. simpl. eexists. split; [done|].
    by destruct (is_pending r).
  - rewrite lookup_alter_ne by done. by exists r.
Qed.

Lemma tracked_cancel t l : tracked l → tracked (cancel t l).
Proof.
  intros Hl t' Ht'. simpl in *. destruct (Hl t' Ht') as (r & Hr & Hcb).
  destruct (decide (t = t')) as [->|Hne].
  - rewrite lookup_alter_eq, Hr. simpl. eexists. split; [done|].
    unfold request_cancel. by destruct (is_pending r).
  - rewrite lookup_alter_ne by done. by exists r.
Qed.

Lemma tracked_run_callbacks t l : tracked l → tracked (run_done_callbacks t l).
Proof.
  intros Hl t'. rewrite run_done_callbacks_spec.
  destruct (tasks l !! t) as [r|] eqn:Hr; [|by apply Hl].
  destruct (is_pending r); [by apply Hl|]. simpl.
  destruct (decide (t = t')) as [<-|Hne].
  - intros Ht. destruct (Hl t) as (r' & Hr' & Hcb).
    { case_bool_decide; set_solver. }
    assert (r' = r) as -> by congruence.
    rewrite bool_decide_eq_true_2 in Ht by done. set_solver.
  - intros Ht. rewrite lookup_insert_ne by done. apply Hl.
    case_bool_decide; set_solver.
Qed.

Lemma tracked_step l l' : step l l' → tracked l → tracked l'.
Proof.
  destruct 1; eauto using tracked_launch, tracked_create, tracked_add_callback,
    tracked_complete, tracked_run_callbacks, tracked_cancel.
Qed.

Lemma tracked_steps l l' : rtc step l l' → tracked l → tracked l'.
Proof. induction 1; eauto using tracked_step. Qed.

(** Every loop the program can reach from a fresh one is tracked. *)
Lemma tracked_reachable main c l : rtc step (initial main c) l → tracked l.
Proof. intros Hsteps. eapply tracked_steps; [done | apply tracked_initial]. Qed.

(** A tracked task whose callbacks were all called is out of the set. *)
Lemma tracked_callbacks_ran t l :
  tracked l → callbacks_ran t l → t ∉ background_tasks l.
Proof.
  intros Hl (r & Hr & _ & Hnil) Ht.
  destruct (Hl t Ht) as (r' & Hr' & Hcb).
  assert (r' = r) as -> by congruence.
  rewrite Hnil in Hcb. by apply elem_of_nil in Hcb.
Qed.

(** Completing a tracked task and calling its callbacks discards it. *)
Lemma tracked_completion_discards t o l :
  tracked l → t ∉ background_tasks (run_done_callbacks t (complete t o l)).
Proof.
  intros Hl%(tracked_complete t o) Ht.
  pose proof (run_done_callbacks_shrinks t (complete t o l) t Ht) as Ht0.
  destruct (Hl t Ht0) as (r & Hr & Hcb).
  rewrite run_done_callbacks_spec, Hr in Ht.
  assert (is_pending r = false) as Hdone.
  { simpl in Hr. rewrite lookup_alter_eq in Hr.
    destruct (tasks l !! t) as [r0|]; [|done]. simpl in Hr.
    destruct (is_pending r0) eqn:Hp; simplify_eq; done. }
  rewrite Hdone in Ht. simpl in Ht.
  rewrite bool_decide_eq_true_2 in Ht by done. set_solver.
Qed.

(** C8.  [launch_background_task] creates a task for the coroutine, puts
    it into the background task set with a callback that discards it, and
    returns it; whenever the task then completes and its callbacks are
    called it leaves the set, and at every later point at which its
    callbacks have been called it is not in the set. *)
Theorem background_task_is_tracked_until_done (c : coroutine) (l : loop) :
  tracked l →
  let t := (launch_background_task c l).1 in
  let l1 := (launch_background_task c l).2 in
  tasks l !! t = None ∧
  tasks l1 !! t = Some (Task c Pending false [DiscardBackgroundTask]) ∧
  t ∈ background_tasks l1 ∧
  ∀ l2, rtc step l1 l2 →
    (∀ o, t ∉ background_tasks (run_done_callbacks t (complete t o l2))) ∧
    (callbacks_ran t l2 → t ∉ background_tasks l2).
Proof.
  intros Hl t l1.
  assert (tracked l1) as Hl1 by by apply tracked_launch.
  subst t l1. rewrite launch_background_task_spec in *. simpl in *.
  split_and!.
  - apply fresh_task_unused.
  - by rewrite lookup_insert_eq.
  - set_solver.
  - intros l2 Hsteps. pose proof (tracked_steps _ _ Hsteps Hl1) as Hl2. split.
    + intros o. by apply tracked_completion_discards.
    + by apply tracked_callbacks_ran.
Qed.

End BackgroundTaskFacts.

(** ** Terminating the child process *)

Section TerminationFacts.
Import Runtime.

Lemma Qle_bool_reflect (a b : Q) : reflect (a <= b)%Q (Qle_bool a b).
Proof. apply iff_reflect. symmetry. apply Qle_bool_iff. Qed.

(** A case split on a comparison of two times that are not themselves
    conditional. *)
Ltac case_Qle :=
  match goal with
  | |- context [Qle_bool ?a ?b] =>
      lazymatch a with context [Qle_bool _ _] => fail | _ => idtac end;
      lazymatch b with context [Qle_bool _ _] => fail | _ => idtac end;
      destruct (Qle_bool_reflect a b); simpl
  end.

Lemma tier1_is_gentle : (Terminate ∉ tier1) ∧ (Kill ∉ tier1).
Proof.
  unfold tier1. split; intros Hin;
    apply list_elem_of_singleton in Hin; discriminate.
Qed.

(** C2.  [terminate_process_safely] returns, leaving the child dead,
    after one, two or three tiers: it waits 3 seconds; only if the child
    is still alive it requests termination and waits 2 seconds more; only
    if the child is still alive then it kills and waits for the exit.  A
    child that exits within the 3 seconds is neither asked to terminate
    nor killed, and the call is over 5 seconds plus the latency of the
    kill after it began, at the latest. *)
Theorem termination_escalates_in_three_tiers (p : process) :
  (0 <= kill_latency p)%Q →
  ∃ r,
    terminate_process_safely p = Some r ∧
    is_alive r = false ∧
    trace r = (if exits_in_grace p then tier1
               else if exits_on_request p then tier1 ++ tier2
               else tier1 ++ tier2 ++ tier3) ∧
    (exits_in_grace p = true → (Terminate ∉ trace r) ∧ (Kill ∉ trace r)) ∧
    (clock r <= 5 + kill_latency p)%Q.
Proof.
  intros Hk.
  assert (∃ r, terminate_process_safely p = Some r ∧
               is_alive r = false ∧
               trace r = (if exits_in_grace p then tier1
                          else if exits_on_request p then tier1 ++ tier2
                          else tier1 ++ tier2 ++ tier3) ∧
               (clock r <= 5 + kill_latency p)%Q) as (r & Hr & Hdead & Htrace & Hclock).
  { unfold terminate_process_safely, join, terminate, kill, is_alive, start,
      earliest, exits_in_grace, exits_on_request, exited_by, tier1, tier2, tier3.
    destruct p as [[d|] [latency|] k]; simpl in *;
      repeat case_Qle; try (exfalso; lra).
    all: eexists; split_and!;
      [ reflexivity
      | simpl; repeat case_Qle; first [reflexivity | exfalso; lra]
      | reflexivity
      | simpl; lra ]. }
  exists r. split_and!; try done.
  intros Hgrace. rewrite Htrace, Hgrace. apply tier1_is_gentle.
Qed.

End TerminationFacts.

(** ** Cancelling all tasks *)

Section CancellationFacts.
Import Py Runtime.

Lemma request_cancel_idemp r : request_cancel (request_cancel r) = request_cancel r.
Proof. unfold request_cancel. by destruct r as [c [|o] q cbs]. Qed.

Lemma request_cancel_pending r :
  is_pending r = true →
  request_cancel r = Task (coro r) Pending true (done_callbacks r).
Proof. unfold request_cancel. destruct r as [c [|o] q cbs]; by intros. Qed.

Lemma request_cancel_done r : is_pending r = false → request_cancel r = r.
Proof. unfold request_cancel. by intros ->. Qed.

Lemma is_pending_request_cancel r : is_pending (request_cancel r) = is_pending r.
Proof. unfold request_cancel. by destruct r as [c [|o] q cbs]. Qed.

(** The loop after a round of [cancel()] calls. *)
Lemma cancel_each_spec ts l :
  cancel_each ts l =
    Loop (cancel_each ts l).(tasks) (current_task l) (background_tasks l) (stdout l) ∧
  ∀ t, tasks (cancel_each ts l) !! t =
       (if bool_decide (t ∈ ts) then request_cancel <$> tasks l !! t
        else tasks l !! t).
Proof.
  revert l. induction ts as [|t0 ts IH]; intros l.
  - split; [by destruct l|]. intros t.
    destruct (bool_decide (t ∈ [])) eqn:Hb; [|done].
    apply bool_decide_eq_true in Hb. by apply elem_of_nil in Hb.
  - destruct (IH (cancel t0 l)) as [Hloop Hlookup]. split.
    + unfold cancel_each in *. simpl. by rewrite Hloop at 1.
    + intros t. unfold cancel_each in *. simpl. rewrite Hlookup. simpl.
      destruct (decide (t0 = t)) as [->|Hne].
      * rewrite lookup_alter_eq.
        rewrite (bool_decide_eq_true_2 (t ∈ t :: ts)) by constructor.
        case_bool_decide; [|done].
        destruct (tasks l !! t) as [r|]; [|done]. simpl.
        by rewrite request_cancel_idemp.
      * rewrite lookup_alter_ne by done.
        apply (f_equal (λ b : bool, if b then _ else _)).
        apply bool_decide_ext. rewrite elem_of_cons. naive_solver.
Qed.

Lemma elem_of_all_tasks l t :
  t ∈ all_tasks l ↔ ∃ r, tasks l !! t = Some r ∧ is_pending r = true.
Proof.
  unfold all_tasks. rewrite elem_of_dom. unfold is_Some.
  setoid_rewrite map_lookup_filter_Some. naive_solver.
Qed.

Lemma all_tasks_cancel_each ts l : all_tasks (cancel_each ts l) = all_tasks l.
Proof.
  apply set_eq. intros t. rewrite !elem_of_all_tasks.
  destruct (cancel_each_spec ts l) as [_ Hlookup]. rewrite Hlookup.
  case_bool_decide; [|done].
  destruct (tasks l !! t) as [r|]; simpl; [|naive_solver].
  split.
  - intros (r' & [= <-] & Hp). rewrite is_pending_request_cancel in Hp. eauto.
  - intros (r' & [= <-] & Hp). eexists. split; [done|].
    by rewrite is_pending_request_cancel.
Qed.

(** A pending task completes and its callbacks are called. *)
Lemma complete_and_run_callbacks t o r l :
  tasks l !! t = Some r → is_pending r = true →
  run_done_callbacks t (complete t o l) =
    Loop (<[t := Task (coro r) (Done o) (cancel_requested r) []]> (tasks l))
         (current_task l)
         (if bool_decide (DiscardBackgroundTask ∈ done_callbacks r)
          then background_tasks l ∖ {[t]} else background_tasks l)
         (stdout l).
Proof.
  intros Hr Hp. rewrite run_done_callbacks_spec. simpl.
  rewrite lookup_alter_eq, Hr. simpl. rewrite Hp. simpl.
  by rewrite insert_alter_eq.
Qed.

Lemma gather_spec ts l :
  NoDup ts →
  (∀ t, t ∈ ts → ∃ r, tasks l !! t = Some r ∧ is_pending r = true) →
  match gather ts l with
  | Some (l', results) =>
      Forall2 (λ t o, ∃ r, tasks l !! t = Some r ∧ on_cancel (coro r) = Finishes o)
              ts results ∧
      (∀ t r, t ∈ ts → tasks l !! t = Some r →
              ∃ o, on_cancel (coro r) = Finishes o ∧
                   tasks l' !! t = Some (drained r o)) ∧
      (∀ t, t ∉ ts → tasks l' !! t = tasks l !! t) ∧
      current_task l' = current_task l ∧
      stdout l' = stdout l
  | None =>
      ∃ t r, t ∈ ts ∧ tasks l !! t = Some r ∧ on_cancel (coro r) = KeepsRunning
  end.
Proof.
  revert l. induction ts as [|t ts IH]; intros l Hnodup Hpending; simpl.
  - split_and!; try done. intros t r Ht. by apply elem_of_nil in Ht.
  - apply NoDup_cons in Hnodup as [Hnotin Hnodup].
    destruct (Hpending t) as (r & Hr & Hp); [by constructor|].
    rewrite Hr. destruct r as [c st q cbs]. simpl in Hp.
    destruct st as [|o']; [|done]. simpl.
    destruct (on_cancel c) as [o|] eqn:Hreact.
    + rewrite (complete_and_run_callbacks t o _ l Hr eq_refl). simpl.
      set (l1 := Loop _ _ _ _).
      assert (∀ t', t' ≠ t → tasks l1 !! t' = tasks l !! t') as Hother.
      { intros t' Hne. simpl. by rewrite lookup_insert_ne. }
      specialize (IH l1 Hnodup).
      destruct (gather ts l1) as [[l' os]|]; simpl.
      * destruct IH as (Hall & Hin & Hout & Hcur & Hstd).
        { intros t' Ht'. rewrite Hother by (intros ->; done).
          apply Hpending. by constructor. }
        split_and!.
        -- constructor; [by exists (Task c Pending q cbs)|].
           eapply Forall2_impl; [exact Hall|].
           intros t' o1 (r1 & Hr1 & Ho1).
           destruct (decide (t' = t)) as [->|Hne].
           ++ simpl in Hr1. rewrite lookup_insert_eq in Hr1.
              injection Hr1 as <-. by exists (Task c Pending q cbs).
           ++ exists r1. by rewrite <- Hother.
        -- intros t' r1 [->|Ht']%elem_of_cons Hr1.
           ++ assert (r1 = Task c Pending q cbs) as -> by congruence.
              exists o. split; [done|]. rewrite Hout by done.
              simpl. by rewrite lookup_insert_eq.
           ++ apply Hin; [done|]. rewrite Hother; [done|]. by intros ->.
        -- intros t' Ht'. rewrite Hout by set_solver.
           apply Hother. set_solver.
        -- by rewrite Hcur.
        -- by rewrite Hstd.
      * destruct IH as (t' & r1 & Ht' & Hr1 & Hk).
        { intros t' Ht'. rewrite Hother by (intros ->; done).
          apply Hpending. by constructor. }
        exists t', r1. split_and!; [by constructor | | done].
        rewrite <- Hother; [done|]. by intros ->.
    + exists t, (Task c Pending q cbs). split_and!; [by constructor | done | done].
Qed.

Lemma report_spec results l :
  report results l =
    Loop (tasks l) (current_task l) (background_tasks l)
         (stdout l ++ (TaskRaisedDuringShutdown <$> omap reportable results)).
Proof.
  unfold report. revert l. induction results as [|o os IH]; intros l; simpl.
  - rewrite app_nil_r. by destruct l.
  - rewrite IH. destruct (reportable o) as [e|]; simpl; [|done].
    by rewrite <- app_assoc.
Qed.

End CancellationFacts.

Section CancellationClaim.
Import Py Runtime.



(** The state of the loop when the [await] begins: every task that is
    awaited has been asked to cancel, and the running task has not. *)
Lemma awaited_are_cancelled (l : loop) :
  current_task l ∉ background_tasks l →
  let l1 := cancel_each (elements (background_tasks l)) l in
  let pending := filter (λ t, t ≠ current_task l1) (elements (all_tasks l1)) in
  let l2 := cancel_each pending l1 in
  NoDup pending ∧
  (∀ t, t ∈ pending ↔ ∃ r, awaited l t r) ∧
  (∀ t r, awaited l t r →
          tasks l2 !! t = Some (Task (coro r) Pending true (done_callbacks r))) ∧
  tasks l2 !! current_task l = tasks l !! current_task l ∧
  current_task l2 = current_task l ∧
  stdout l2 = stdout l.
Proof.
  intros Hcur l1 pending l2.
  destruct (cancel_each_spec (elements (background_tasks l)) l) as [Hl1 Hlook1].
  destruct (cancel_each_spec pending l1) as [Hl2 Hlook2].
  fold l1 in Hl1, Hlook1. fold l2 in Hl2, Hlook2.
  assert (current_task l1 = current_task l) as Hcur1 by (by rewrite Hl1).
  assert (∀ t, t ∈ pending ↔ ∃ r, awaited l t r) as Hmem.
  { intros t. unfold pending. rewrite list_elem_of_filter, elem_of_elements.
    unfold l1 at 2. rewrite all_tasks_cancel_each, elem_of_all_tasks, Hcur1.
    unfold awaited. naive_solver. }
  split_and!.
  - apply NoDup_filter, NoDup_elements.
  - done.
  - intros t r Haw. pose proof Haw as (Hr & Hp & Hne).
    rewrite Hlook2, Hlook1, Hr.
    rewrite (bool_decide_eq_true_2 (t ∈ pending)) by (apply Hmem; eauto).
    case_bool_decide; simpl; rewrite ?request_cancel_idemp;
      by rewrite request_cancel_pending.
  - rewrite Hlook2, Hlook1.
    rewrite (bool_decide_eq_false_2 (_ ∈ pending)).
    + rewrite bool_decide_eq_false_2; [done|]. by rewrite elem_of_elements.
    + rewrite Hmem. intros (r & _ & _ & Hne). done.
  - by rewrite Hl2.
  - by rewrite Hl2, Hl1.
Qed.



End CancellationClaim.

(** ** The runtime on the sample data *)

Section RuntimeSamplesFacts.
Import Py Runtime RuntimeSamples.

(** The first background task of [run_native_runtime] enters the set. *)
Lemma background_task_witness :
  tracked idle ∧
  (launch_background_task server idle).1
    ∈ background_tasks (launch_background_task server idle).2.
Proof.
  split; [apply tracked_initial|].
  apply (background_task_is_tracked_until_done server idle (tracked_initial _ _)).
Defined.



Example cancel_all_tasks_serving :
  (cancel_all_tasks serving).2 = Returns ∧
  stdout (cancel_all_tasks serving).1 =
    [TaskRaisedDuringShutdown (RuntimeError (Msg "channel closed" []))] ∧
  background_tasks (cancel_all_tasks serving).1 = ∅.
Proof. split_and!; by vm_compute. Qed.

(** The stubborn child goes through the three tiers. *)
Lemma termination_witness :
  (0 <= kill_latency stubborn)%Q ∧
  ∃ r, terminate_process_safely stubborn = Some r ∧
       trace r = tier1 ++ tier2 ++ tier3.
Proof.
  assert (Hk : (0 <= kill_latency stubborn)%Q) by (by vm_compute).
  split; [exact Hk|].
  destruct (termination_escalates_in_three_tiers stubborn Hk)
    as (r & Hr & _ & Htrace & _).
  exists r. split; [exact Hr | exact Htrace].
Defined.

Example prompt_child_is_left_alone :
  trace <$> terminate_process_safely prompt = Some tier1.
Proof. reflexivity. Qed.

End RuntimeSamplesFacts.

(** * More properties *)

(** ** Addresses *)

Section AddressFacts.
Import Py Utils Addresses.

Lemma digit_value_digit_char d : 0 ≤ d < 10 → digit_value (digit_char d) = Some d.
Proof.
  intros Hd.
  assert (d = 0 ∨ d = 1 ∨ d = 2 ∨ d = 3 ∨ d = 4 ∨ d = 5 ∨ d = 6 ∨ d = 7 ∨ d = 8 ∨ d = 9)
    as Hcases by lia.
  destruct_or!; subst d; reflexivity.
Qed.

Lemma digit_value_bounds c d :
  digit_value c = Some d → (48 ≤ nat_of_ascii c ≤ 57)%nat ∧ 0 ≤ d < 10.
Proof.
  unfold digit_value.
  destruct (48 <=? nat_of_ascii c)%nat eqn:H1; [|done].
  destruct (nat_of_ascii c <=? 57)%nat eqn:H2; [|done].
  simpl. intros [= <-].
  apply Nat.leb_le in H1, H2. lia.
Qed.

Lemma digit_not c d (x : ascii) :
  digit_value c = Some d → ¬ (48 ≤ nat_of_ascii x ≤ 57)%nat → Ascii.eqb c x = false.
Proof.
  intros [Hc _]%digit_value_bounds Hx.
  apply not_true_iff_false. intros ->%Ascii.eqb_eq. done.
Qed.

Lemma digit_not_space c d : digit_value c = Some d → is_space c = false.
Proof.
  intros [Hc _]%digit_value_bounds. unfold is_space.
  apply orb_false_iff. split.
  - apply Nat.eqb_neq. lia.
  - apply andb_false_iff. right. apply Nat.leb_gt. lia.
Qed.

Lemma more_digits_digit a c d rest :
  digit_value c = Some d →
  more_digits a false (String c rest) = more_digits (10 * a + d) false rest.
Proof.
  intros Hd. simpl. rewrite (digit_not c d "_" Hd) by (change (nat_of_ascii "_") with 95%nat; lia).
  by rewrite Hd.
Qed.

Lemma decimal_parse fuel n rest :
  0 ≤ n < 10 ^ Z.of_nat fuel →
  ∃ k, 0 ≤ k ∧
       ∀ a, more_digits a false (decimal fuel n rest)
            = more_digits (a * 10 ^ k + n) false rest.
Proof.
  revert n rest. induction fuel as [|fuel IH]; intros n rest Hn.
  - exists 0. split; [done|]. intros a. simpl in *. f_equal. lia.
  - simpl. destruct (n <? 10) eqn:Hlt.
    + apply Z.ltb_lt in Hlt. exists 1. split; [done|]. intros a.
      rewrite (more_digits_digit a _ n) by (apply digit_value_digit_char; lia).
      f_equal. lia.
    + apply Z.ltb_ge in Hlt.
      destruct (IH (n / 10) (String (digit_char (n mod 10)) rest)) as (k & Hk & Hparse).
      { split; [apply Z.div_pos; lia|].
        apply Z.div_lt_upper_bound; [lia|].
        rewrite Nat2Z.inj_succ, Z.pow_succ_r in Hn by lia. lia. }
      exists (k + 1). split; [lia|]. intros a. rewrite Hparse.
      rewrite (more_digits_digit _ _ (n mod 10))
        by (apply digit_value_digit_char; apply Z.mod_pos_bound; lia).
      f_equal. rewrite Z.pow_add_r by lia.
      pose proof (Z.div_mod n 10). lia.
Qed.

Lemma digits_only_cons c s :
  digits_only (String c s) = bool_decide (is_Some (digit_value c)) && digits_only s.
Proof. reflexivity. Qed.

Lemma decimal_digits_only fuel n rest :
  0 ≤ n → digits_only rest = true → digits_only (decimal fuel n rest) = true.
Proof.
  revert n rest. induction fuel as [|fuel IH]; intros n rest Hn Hrest; simpl; [done|].
  destruct (n <? 10) eqn:Hlt.
  - apply Z.ltb_lt in Hlt. rewrite digits_only_cons.
    rewrite digit_value_digit_char by lia. by rewrite Hrest.
  - apply IH; [apply Z.div_pos; lia|]. rewrite digits_only_cons.
    rewrite digit_value_digit_char by (apply Z.mod_pos_bound; lia). by rewrite Hrest.
Qed.

Lemma decimal_not_empty fuel n rest :
  decimal (S fuel) n rest ≠ EmptyString.
Proof.
  assert (∀ f m c r, decimal f m (String c r) ≠ EmptyString) as Hcons.
  { induction f as [|f IH]; intros m c r; simpl; [done|].
    destruct (m <? 10); [done | apply IH]. }
  simpl. destruct (n <? 10); [done | apply Hcons].
Qed.

Lemma digits_only_head c s :
  digits_only (String c s) = true →
  ∃ d, digit_value c = Some d ∧ digits_only s = true.
Proof.
  simpl. intros [Hc Hs]%andb_true_iff.
  apply bool_decide_eq_true in Hc as [d Hd]. eauto.
Qed.

Lemma lstrip_digits s : digits_only s = true → lstrip s = s.
Proof.
  destruct s as [|c s]; [done|].
  intros (d & Hd & _)%digits_only_head. simpl.
  by rewrite (digit_not_space c d Hd).
Qed.

Lemma rstrip_digits s : digits_only s = true → rstrip s = s.
Proof.
  induction s as [|c s IH]; [done|].
  intros (d & Hd & Hs)%digits_only_head. simpl. rewrite (IH Hs).
  destruct s; [|done]. by rewrite (digit_not_space c d Hd).
Qed.

Lemma contains_colon_digits s : digits_only s = true → contains ":" s = false.
Proof.
  induction s as [|c s IH]; [done|].
  intros (d & Hd & Hs)%digits_only_head. simpl. rewrite (IH Hs).
  rewrite (digit_not c d ":" Hd); [done|].
  change (nat_of_ascii ":") with 58%nat. lia.
Qed.

Lemma unsigned_literal_digits s :
  s ≠ EmptyString →
  digits_only s = true → unsigned_literal s = more_digits 0 false s.
Proof.
  destruct s as [|c s]; [done|].
  intros _ (d & Hd & _)%digits_only_head.
  rewrite (more_digits_digit 0 c d s Hd). simpl. by rewrite Hd.
Qed.

(** A text that begins with a digit has no sign to take off. *)
Lemma sign_of_digits c d s :
  digit_value c = Some d →
  match String c s with
  | String "+" body => unsigned_literal body
  | String "-" body => Z.opp <$> unsigned_literal body
  | body => unsigned_literal body
  end = unsigned_literal (String c s).
Proof.
  intros Hd.
  destruct c as [[] [] [] [] [] [] [] []]; try reflexivity; discriminate Hd.
Qed.

Lemma int_of_str_digits s :
  s ≠ EmptyString →
  digits_only s = true → int_of_str s = more_digits 0 false s.
Proof.
  intros Hne Hs. unfold int_of_str.
  rewrite (lstrip_digits s Hs), (rstrip_digits s Hs).
  destruct s as [|c s]; [done|].
  destruct (digits_only_head c s Hs) as (d & Hd & _).
  rewrite (sign_of_digits c d s Hd). by apply unsigned_literal_digits.
Qed.

Lemma enough_fuel n : 0 ≤ n → n < 10 ^ Z.of_nat (S (Z.to_nat (Z.log2 n))).
Proof.
  intros Hn. rewrite Nat2Z.inj_succ, Z2Nat.id by apply Z.log2_nonneg.
  destruct (decide (n = 0)) as [->|Hpos]; [done|].
  pose proof (Z.log2_spec n ltac:(lia)) as [_ Hlt].
  eapply Z.lt_le_trans; [exact Hlt|].
  apply Z.pow_le_mono_l. lia.
Qed.

Lemma parse_decimal n :
  0 ≤ n →
  more_digits 0 false (decimal (S (Z.to_nat (Z.log2 n))) n EmptyString) = Some n.
Proof.
  intros Hn.
  destruct (decimal_parse (S (Z.to_nat (Z.log2 n))) n EmptyString) as (k & _ & Hparse).
  { split; [done | by apply enough_fuel]. }
  rewrite Hparse. simpl. f_equal; lia.
Qed.

(** [int(str(n)) == n] *)
Lemma int_of_str_of_int n : int_of_str (str_of_int n) = Some n.
Proof.
  unfold str_of_int. destruct (n <? 0) eqn:Hneg.
  - apply Z.ltb_lt in Hneg.
    set (digits := decimal _ (- n) EmptyString).
    assert (digits_only digits = true) as Hd
      by (apply decimal_digits_only; [lia | done]).
    assert (digits ≠ EmptyString) as Hne by apply decimal_not_empty.
    unfold int_of_str.
    assert (lstrip (String "-" digits) = String "-" digits) as -> by done.
    assert (rstrip (String "-" digits) = String "-" digits) as ->.
    { simpl. rewrite (rstrip_digits _ Hd). by destruct digits. }
    rewrite (unsigned_literal_digits _ Hne Hd).
    unfold digits. rewrite parse_decimal by lia. simpl. f_equal. lia.
  - apply Z.ltb_ge in Hneg.
    rewrite int_of_str_digits
      by first [apply decimal_not_empty | by apply decimal_digits_only].
    by apply parse_decimal.
Qed.

Lemma str_of_port_digits port : 0 ≤ port → digits_only (str_of_int port) = true.
Proof.
  intros Hp. unfold str_of_int.
  rewrite (proj2 (Z.ltb_ge port 0)) by done. by apply decimal_digits_only.
Qed.

Lemma str_of_int_not_empty n : str_of_int n ≠ EmptyString.
Proof. unfold str_of_int. destruct (n <? 0); [done | apply decimal_not_empty]. Qed.

Lemma format_then_split (host : string) (port : Z) :
  host ≠ EmptyString →
  0 ≤ port ≤ 65535 →
  split_address int_of_str (host +:+ String ":" (str_of_int port))
    = Return (host, port).
Proof.
  intros Hhost Hport.
  assert (splits_at_last_colon (host +:+ String ":" (str_of_int port))
            host (str_of_int port)) as Hsplit.
  { split; [done|]. apply contains_colon_digits, str_of_port_digits. lia. }
  unfold split_address.
  rewrite (splits_at_last_colon_contains _ _ _ Hsplit). simpl.
  apply splits_at_last_colon_rsplit in Hsplit as ->.
  rewrite decide_False by done.
  rewrite decide_False by apply str_of_int_not_empty.
  unfold parse_port, int_call. rewrite int_of_str_of_int. simpl.
  rewrite (proj2 (Z.leb_le 0 port)), (proj2 (Z.leb_le port 65535)) by lia.
  done.
Qed.

(** X2.  Splitting undoes the formatting: for a non-empty host, which may
    contain colons, and a port within 0..65535, [split_address] applied to
    the text of the host, a colon and the decimal text of the port returns
    that host and that port. *)
Theorem split_address_inverts_formatting (host : string) (port : Z) :
  host ≠ EmptyString →
  0 ≤ port ≤ 65535 →
  split_address int_of_str (host +:+ String ":" (str_of_int port))
    = Return (host, port).
Proof. intros Hhost Hport. by apply format_then_split. Qed.

(** X3.  The address [find_free_ports_and_create_addrs] builds from the
    port the system assigned is one [split_address] accepts, and it splits
    into the host 127.0.0.1 and that port. *)
Theorem free_address_splits (assigned : Z) :
  0 ≤ assigned ≤ 65535 →
  split_address int_of_str (find_free_ports_and_create_addrs assigned)
    = Return ("127.0.0.1", assigned).
Proof.
  intros Hport. unfold find_free_ports_and_create_addrs.
  by apply (format_then_split "127.0.0.1" assigned).
Qed.


(** X1.  What [split_address] returns is valid: the host is not empty, the
    port lies within 0..65535, and the address is that host, a colon and
    a non-empty text without a colon of which the port is the integer
    value. *)
Theorem split_address_returns_valid_parts
    (int : string → option Z) (address host : string) (port : Z) :
  split_address int address = Return (host, port) →
  host ≠ EmptyString ∧
  0 ≤ port ≤ 65535 ∧
  ∃ port_str,
    port_str ≠ EmptyString ∧
    address = host +:+ String ":" port_str ∧
    contains ":" port_str = false ∧
    int port_str = Some port.
Proof.
  intros Hres. pose proof (split_address_outcome int address) as Hout.
  rewrite Hres in Hout.
  inversion Hout as [| | | |? port_str ? [Haddr Hlast] Hh Hp Hi Hr]; subst.
  split_and!; [done | lia | lia |]. by exists port_str.
Qed.

End AddressFacts.

(** ** JSON-safe data *)

Section JsonSafeFacts.
Import JsonSafe.

Lemma pyobj_ind_nested (P : pyobj → Prop) :
  P PNone → (∀ s, P (PStr s)) → (∀ n, P (PInt n)) → (∀ r, P (PFloat r)) →
  (∀ b, P (PBool b)) → (∀ t, P (PPath t)) →
  (∀ d, P d → P (PModel d)) → (∀ d, P d → P (PDataclass d)) →
  (∀ items, Forall (λ kv, P kv.2) items → P (PDict items)) →
  (∀ l, Forall P l → P (PList l)) →
  (∀ l, Forall P l → P (PTuple l)) →
  (∀ l, Forall P l → P (PSet l)) →
  (∀ n, P (POther n)) →
  ∀ obj, P obj.
Proof.
  intros HNone HStr HInt HFloat HBool HPath HModel HData HDict HList HTuple HSet HOther.
  fix IH 1. intros [ |s|n|r|b|t|d|d|items|l|l|l|n].
  - apply HNone.
  - apply HStr.
  - apply HInt.
  - apply HFloat.
  - apply HBool.
  - apply HPath.
  - apply HModel, IH.
  - apply HData, IH.
  - apply HDict. induction items as [|[k v] items IHitems]; constructor; [apply IH | done].
  - apply HList. induction l as [|x l IHl]; constructor; [apply IH | done].
  - apply HTuple. induction l as [|x l IHl]; constructor; [apply IH | done].
  - apply HSet. induction l as [|x l IHl]; constructor; [apply IH | done].
  - apply HOther.
Qed.


Lemma forallb_Forall {A} (f : A → bool) (l : list A) :
  forallb f l = true ↔ Forall (λ x, f x = true) l.
Proof.
  induction l as [|x l IH]; simpl; [by split|].
  rewrite andb_true_iff, Forall_cons, IH. done.
Qed.

(** *** Dictionaries built by a comprehension *)

Lemma dict_set_keys k v d :
  map fst (dict_set k v d) =
    if bool_decide (k ∈ map fst d) then map fst d else map fst d ++ [k].
Proof.
  induction d as [|[k' v'] d IH]; simpl; [done|].
  destruct (decide (k = k')) as [->|Hne]; simpl.
  - by rewrite bool_decide_eq_true_2 by constructor.
  - rewrite IH. destruct (decide (k ∈ map fst d)) as [Hin|Hnotin].
    + rewrite !bool_decide_eq_true_2; [done | by constructor | done].
    + rewrite !bool_decide_eq_false_2; [done | | done].
      by intros [?|?]%elem_of_cons.
Qed.

Lemma dict_set_NoDup k v d : NoDup (map fst d) → NoDup (map fst (dict_set k v d)).
Proof.
  intros Hd. rewrite dict_set_keys. case_bool_decide; [done|].
  apply NoDup_app. split_and!; [done | | apply NoDup_singleton].
  intros x Hx ->%list_elem_of_singleton. done.
Qed.

Lemma dict_set_values (Q : pyobj → Prop) k v d :
  Q v → Forall (λ kv, Q kv.2) d → Forall (λ kv, Q kv.2) (dict_set k v d).
Proof.
  intros Hv. induction 1 as [|[k' v'] d Hkv Hd IH]; simpl.
  - by constructor.
  - destruct (decide (k = k')); constructor; done.
Qed.

Lemma dict_set_fresh k v d : k ∉ map fst d → dict_set k v d = d ++ [(k, v)].
Proof.
  induction d as [|[k' v'] d IH]; simpl; [done|].
  intros Hk. rewrite decide_False by set_solver.
  rewrite IH; [done | set_solver].
Qed.

Lemma dict_fold_spec (Q : pyobj → Prop) items d0 :
  NoDup (map fst d0) → Forall (λ kv, Q kv.2) d0 → Forall (λ kv, Q kv.2) items →
  NoDup (map fst (foldl (λ d kv, dict_set kv.1 kv.2 d) d0 items)) ∧
  Forall (λ kv, Q kv.2) (foldl (λ d kv, dict_set kv.1 kv.2 d) d0 items).
Proof.
  revert d0. induction items as [|[k v] items IH]; intros d0 Hnodup Hd0 Hitems; simpl.
  - done.
  - apply Forall_cons in Hitems as [Hv Hitems].
    apply IH; [by apply dict_set_NoDup | by apply dict_set_values | done].
Qed.

Lemma dict_fold_distinct items d0 :
  NoDup (map fst (d0 ++ items)) →
  foldl (λ d kv, dict_set kv.1 kv.2 d) d0 items = d0 ++ items.
Proof.
  revert d0. induction items as [|[k v] items IH]; intros d0 Hnodup; simpl.
  - by rewrite app_nil_r.
  - rewrite dict_set_fresh.
    + rewrite IH; rewrite <- app_assoc; done.
    + rewrite map_app in Hnodup. apply NoDup_app in Hnodup as (_ & Hdisj & _).
      intros Hin. apply (Hdisj k Hin). simpl. by constructor.
Qed.

Lemma dict_of_distinct items : NoDup (map fst items) → dict_of items = items.
Proof. intros Hnodup. unfold dict_of. by rewrite dict_fold_distinct. Qed.

Lemma as_items_safe d :
  NoDup (map fst d) → Forall (λ kv, json_safe kv.2 = true) d →
  json_safe (PDict (as_items d)) = true.
Proof.
  intros Hnodup Hvalues. simpl. apply andb_true_iff. split.
  - apply forallb_Forall. unfold as_items. rewrite Forall_map.
    eapply Forall_impl; [exact Hvalues|]. intros [k v] Hv. simpl in *.
    by rewrite Hv.
  - apply bool_decide_eq_true_2.
    replace (omap (λ kv, key_text kv.1) (as_items d)) with (map fst d); [done|].
    unfold as_items. clear. induction d as [|[k v] d IH]; simpl; [done|].
    by rewrite IH.
Qed.

Section MakeJsonSafeFacts.
Variable str : pyobj → string.

Lemma make_json_safe_gives_safe_data (obj : pyobj) :
  convertible obj = true → json_safe (make_json_safe str obj) = true.
Proof.
  induction obj as [ |s|n|r|b|t|d IH|d IH|items IH|l IH|l IH|l IH|n]
    using pyobj_ind_nested; simpl; try done.
  - intros Hitems. apply as_items_safe.
    + apply (dict_fold_spec (λ _, True)); [constructor | constructor |].
      by apply Forall_true.
    + apply (dict_fold_spec (λ v, json_safe v = true)); [constructor | constructor |].
      rewrite Forall_map. apply forallb_Forall in Hitems.
      rewrite Forall_forall in IH, Hitems. apply Forall_forall.
      intros [k v] Hkv. simpl. apply (IH _ Hkv), (Hitems _ Hkv).
  - intros Hl. apply forallb_Forall. rewrite Forall_map.
    apply forallb_Forall in Hl. rewrite Forall_forall in IH, Hl.
    apply Forall_forall. intros x Hx. apply (IH _ Hx), (Hl _ Hx).
  - intros Hl. apply forallb_Forall. rewrite Forall_map.
    apply forallb_Forall in Hl. rewrite Forall_forall in IH, Hl.
    apply Forall_forall. intros x Hx. apply (IH _ Hx), (Hl _ Hx).
  - intros Hl. apply forallb_Forall. rewrite Forall_map.
    apply forallb_Forall in Hl. rewrite Forall_forall in IH, Hl.
    apply Forall_forall. intros x Hx. apply (IH _ Hx), (Hl _ Hx).
Qed.


Lemma make_json_safe_fixes_safe_data (obj : pyobj) :
  (∀ s, str (PStr s) = s) →
  json_safe obj = true → make_json_safe str obj = obj.
Proof.
  intros Hstr.
  induction obj as [ |s|n|r|b|t|d IH|d IH|items IH|l IH|l IH|l IH|n]
    using pyobj_ind_nested; simpl; try done.
  - intros [Hitems Hnodup%bool_decide_eq_true]%andb_true_iff. f_equal.
    apply forallb_Forall in Hitems.
    assert (∃ d, map (λ kv, match kv with
                            | (k, v) => (str k, make_json_safe str v)
                            end) items = d
                 ∧ as_items d = items
                 ∧ map fst d = omap (λ kv, key_text kv.1) items)
      as (d & -> & Hback & Hkeys).
    { clear Hnodup.
      induction items as [|[k v] items IHitems]; [by exists []|].
      apply Forall_cons in IH as [IHv IH]. apply Forall_cons in Hitems as [Hkv Hitems].
      apply andb_true_iff in Hkv as [[s Hk]%bool_decide_eq_true Hv].
      destruct k; try discriminate Hk. simpl in IHv, Hv.
      destruct (IHitems IH Hitems) as (d & H1 & H2 & H3).
      exists ((s0, v) :: d). split_and!.
      - simpl. by rewrite Hstr, (IHv Hv), H1.
      - unfold as_items in *. simpl. by rewrite H2.
      - simpl. f_equal. exact H3. }
    rewrite dict_of_distinct; [done | by rewrite Hkeys].
  - intros Hl. f_equal. apply forallb_Forall in Hl.
    induction l as [|x l IHl]; simpl; [done|].
    apply Forall_cons in IH as [IHx IH]. apply Forall_cons in Hl as [Hx Hl].
    by rewrite (IHx Hx), (IHl IH Hl).
Qed.

(** X5.  [make_json_safe] returns data that is JSON-safe already
    unchanged. *)
Theorem make_json_safe_keeps_safe_data (obj : pyobj) :
  (∀ s, str (PStr s) = s) →
  json_safe obj = true → make_json_safe str obj = obj.
Proof. apply make_json_safe_fixes_safe_data. Qed.


Lemma make_json_safe_idempotent (obj : pyobj) :
  (∀ s, str (PStr s) = s) →
  convertible obj = true →
  make_json_safe str (make_json_safe str obj) = make_json_safe str obj.
Proof.
  intros Hstr Hobj.
  by apply make_json_safe_fixes_safe_data, make_json_safe_gives_safe_data.
Qed.

(** A model is replaced by its dump as it is: one that holds a path gives
    data that is not JSON-safe. *)
Example model_dump_is_not_converted :
  normalize_args str (PModel (PDict [(PStr "p", PPath "/x"); (PStr "n", PInt 3)]))
    = [PDict [(PStr "p", PPath "/x"); (PStr "n", PInt 3)]] ∧
  json_safe (PDict [(PStr "p", PPath "/x"); (PStr "n", PInt 3)]) = false.
Proof. split; reflexivity. Qed.

(** X6.  When the models and dataclass instances inside the arguments
    dump to JSON-safe data, and [str] of a string is that string,
    [normalize_args] returns a list of JSON-safe values that normalising
    again does not change: empty for [None], of the length of the list
    for a list, and of one element for anything else, a tuple
    included. *)
Theorem normalize_args_is_normal (args : pyobj) :
  (∀ s, str (PStr s) = s) →
  convertible args = true →
  Forall (λ a, json_safe a = true) (normalize_args str args) ∧
  normalize_args str (PList (normalize_args str args)) = normalize_args str args ∧
  length (normalize_args str args)
    = match args with
      | PNone => 0%nat
      | PList elements => length elements
      | _ => 1%nat
      end.
Proof.
  intros Hstr Hargs.
  assert (∀ l, forallb convertible l = true →
               Forall (λ a, json_safe a = true) (map (make_json_safe str) l) ∧
               map (make_json_safe str) (map (make_json_safe str) l)
                 = map (make_json_safe str) l) as Hlist.
  { intros l Hl. apply forallb_Forall in Hl. split.
    - rewrite Forall_map. eapply Forall_impl; [exact Hl|].
      intros x Hx. by apply make_json_safe_gives_safe_data.
    - rewrite map_map. apply map_ext_Forall.
      eapply Forall_impl; [exact Hl|]. intros x Hx.
      by apply make_json_safe_idempotent. }
  assert (json_safe (make_json_safe str args) = true) as Hsafe
    by by apply make_json_safe_gives_safe_data.
  assert (make_json_safe str (make_json_safe str args) = make_json_safe str args)
    as Hidem by by apply make_json_safe_idempotent.
  destruct args; simpl in *;
    try (split_and!; [by repeat constructor | by rewrite ?Hidem | done]).
  destruct (Hlist elements Hargs) as [Hall Hmap].
  split_and!; [done | done | by rewrite length_map].
Qed.

End MakeJsonSafeFacts.
End JsonSafeFacts.

(** ** More on the relay *)

Section RelayExtras.
Import Py Connections.
Context `{Collaborators}.

(** A turn of the loop lets through nothing that is an [Exception]. *)
Lemma process_message_result websocket message w :
  (process_message websocket message w).2 = Return tt ∨
  ∃ e, (process_message websocket message w).2 = Raise e ∧ is_Exception e = false.
Proof.
  unfold process_message. destruct (message_body message w) as [w1 [[]|e]]; [by left|].
  destruct (is_JSONDecodeError e); [by left|].
  destruct (is_Exception e) eqn:He; [by left|]. right. by exists e.
Qed.

Lemma receive_result websocket messages ending w :
  (receive websocket messages ending w).2 = Return tt ∨
  (receive websocket messages ending w).2 = Raise ConnectionClosed ∨
  ∃ e, (receive websocket messages ending w).2 = Raise e ∧ is_Exception e = false.
Proof.
  revert w. induction messages as [|message rest IH]; intros w; simpl.
  - destruct ending; auto.
  - pose proof (process_message_result websocket message w) as Hturn.
    destruct (process_message websocket message w) as [w1 [[]|e]]; simpl in *.
    + apply IH.
    + destruct Hturn as [?|(e' & [= <-] & He)]; [done|]. right. right. by exists e.
Qed.

(** X7.  Whatever the peer sends, whatever the dispatcher does and however
    the connection ends, the handler of a connection ends with its
    connection out of the set, and it lets no [Exception] escape: it
    returns, or it is left by an exception that is not an [Exception]. *)
Theorem handler_lets_no_exception_escape
    (websocket : client) (messages : list string) (ending : closure) (w : world) :
  (websocket ∉ connected_clients
     (handle_frontend_connections websocket messages ending w).1) ∧
  ((handle_frontend_connections websocket messages ending w).2 = Return tt ∨
   ∃ e, (handle_frontend_connections websocket messages ending w).2 = Raise e ∧
        is_Exception e = false).
Proof.
  split; [apply handler_discards_itself|].
  unfold handle_frontend_connections.
  set (w0 := set_connected_clients _ w).
  pose proof (receive_result websocket messages ending w0) as Hres.
  destruct (receive websocket messages ending w0) as [w1 r]. simpl in Hres.
  destruct Hres as [->|[->|(e & -> & He)]]; simpl; [by left | by left |].
  right. exists e. by destruct e.
Qed.


(** X9.  An envelope whose [cmd] is not a string is never dispatched: the
    relay logs one error, changes nothing else, and goes on. *)
Theorem non_string_command_is_not_dispatched
    (websocket : client) (message : string) (call : invocation) (w : world) :
  envelope message call →
  (∀ name, inv_cmd call ≠ Json.Str name) →
  ∃ record,
    log_level record = ERROR ∧
    process_message websocket message w = (emit record w, Return tt).
Proof.
  intros Henv Hcmd.
  pose proof Henv as (fields & Hload & _).
  destruct (envelope_has_keys _ _ _ Hload Henv) as (Hkeys & Hc & _).
  unfold process_message, message_body.
  rewrite Hload, Hkeys, Hc.
  destruct (inv_cmd call) as [ |b|n|s|items|fs] eqn:Hv; simpl;
    try (eexists; split; [|reflexivity]; done).
  by destruct (Hcmd s).
Qed.


(** The world after some more log records. *)
Lemma emit_sequence records record w :
  emit record (World (connected_clients w) (event_callbacks w) (closed_peers w)
                     (sends w) (log w ++ records) (invoked w))
  = World (connected_clients w) (event_callbacks w) (closed_peers w)
          (sends w) (log w ++ (records ++ [record])) (invoked w).
Proof. unfold emit. simpl. by rewrite app_assoc. Qed.

Lemma receive_malformed websocket messages ending w :
  Forall malformed messages →
  ∃ records,
    length records = length messages ∧
    Forall (λ r, log_level r = WARNING ∨ log_level r = ERROR) records ∧
    receive websocket messages ending w =
      (World (connected_clients w) (event_callbacks w) (closed_peers w)
             (sends w) (log w ++ records) (invoked w),
       match ending with
       | ClosedOK => Return tt
       | ClosedError => Raise ConnectionClosed
       end).
Proof.
  intros Hall. revert w. induction Hall as [|message rest Hbad Hrest IH]; intros w.
  - exists []. split_and!; [done | done |]. simpl. rewrite app_nil_r.
    destruct w, ending; done.
  - destruct (process_malformed websocket message w Hbad) as (record & Hlevel & Hturn).
    destruct (IH (emit record w)) as (records & Hlen & Hlevels & Hrun).
    exists (record :: records). split_and!.
    + simpl. by rewrite Hlen.
    + by constructor.
    + rewrite (receive_next _ _ _ _ _ _ Hturn), Hrun. simpl.
      by rewrite <- app_assoc.
Qed.

(** X10.  A connection that sends nothing but malformed messages leaves
    one warning or error per message in the log, one more record if it
    broke off, and nothing else: no send, no call, and the set without
    it. *)
Theorem malformed_messages_only_fill_the_log
    (websocket : client) (messages : list string) (ending : closure) (w : world) :
  Forall malformed messages →
  ∃ records,
    length records = length messages ∧
    Forall (λ r, log_level r = WARNING ∨ log_level r = ERROR) records ∧
    handle_frontend_connections websocket messages ending w =
      (World (connected_clients w ∖ {[websocket]}) (event_callbacks w) (closed_peers w)
             (sends w)
             (log w ++ records ++
                match ending with
                | ClosedOK => []
                | ClosedError =>
                    [Log INFO "Client disconnected: %s" [ArgPeer websocket] false]
                end)
             (invoked w),
       Return tt).
Proof.
  intros Hall. unfold handle_frontend_connections.
  set (w0 := set_connected_clients _ w).
  destruct (receive_malformed websocket messages ending w0 Hall)
    as (records & Hlen & Hlevels & ->).
  exists records. split_and!; [done | done |].
  assert (({[websocket]} ∪ connected_clients w) ∖ {[websocket]}
          = connected_clients w ∖ {[websocket]}) as Hset by set_solver.
  destruct ending; simpl; rewrite Hset.
  - by rewrite app_nil_r.
  - unfold set_connected_clients. simpl. by rewrite <- app_assoc.
Qed.

Lemma sent_to_send_result w text (cs : list client) :
  sent_to <$> (send_result w text <$> cs) = cs.
Proof. induction cs as [|c cs IH]; [done|]. rewrite !fmap_cons, IH. done. Qed.

(** X11.  A broadcast calls [send] once for each member of the set and for
    nobody else, with the same text; it touches neither the set nor the
    log. *)
Theorem broadcast_sends_once_to_each_member (text : string) (w : world) :
  ∃ new,
    (broadcast text w).1 =
      World (connected_clients w) (event_callbacks w) (closed_peers w)
            (sends w ++ new) (log w) (invoked w) ∧
    length new = size (connected_clients w) ∧
    NoDup (sent_to <$> new) ∧
    (∀ c, c ∈ sent_to <$> new ↔ c ∈ connected_clients w) ∧
    Forall (λ r, sent_text r = text ∧
                 delivered r = bool_decide (sent_to r ∉ closed_peers w)) new.
Proof.
  exists (send_result w text <$> elements (connected_clients w)).
  rewrite sent_to_send_result. split_and!.
  - apply broadcast_world.
  - by rewrite length_fmap.
  - apply NoDup_elements.
  - intros c. apply elem_of_elements.
  - apply Forall_fmap, Forall_forall. by intros c _.
Qed.

(** X12.  When every member of the set is reachable, the answer to a
    dispatched command is delivered to each of them, once, and to nobody
    else, and nothing is logged. *)
Theorem response_to_open_peers_is_delivered_quietly
    (websocket : client) (message : string) (call : invocation)
    (w w1 : world) (text : string) :
  envelope message call →
  registered (inv_cmd call) w →
  answers call w w1 text →
  (∀ c, c ∈ connected_clients w1 → c ∉ closed_peers w1) →
  ∃ w' new,
    process_message websocket message w = (w', Return tt) ∧
    sends w' = sends w1 ++ new ∧
    length new = size (connected_clients w1) ∧
    Forall (λ r, sent_text r = text ∧ delivered r = true) new ∧
    log w' = log w1 ∧
    connected_clients w' = connected_clients w1 ∧
    NoDup (sent_to <$> new) ∧
    (∀ c, c ∈ sent_to <$> new ↔ c ∈ connected_clients w1) ∧
    (∀ c, c ∈ connected_clients w1 → Sent c text true ∈ new).
Proof.
  intros Henv Hreg Hans Hopen.
  pose proof (process_dispatched websocket _ _ _ _ _ Henv Hreg Hans) as Hturn.
  simpl in Hturn. set (w1' := set_invoked _ w1) in Hturn.
  pose proof (broadcast_world text w1') as Hw.
  destruct (broadcast_result text w1') as [[_ Hres]|[(c & Hc & Hclosed) _]].
  - rewrite Hres in Hturn.
    exists (broadcast text w1').1, (send_result w1 text <$> elements (connected_clients w1)).
    split; [done|]. rewrite Hw. simpl. rewrite sent_to_send_result.
    split_and!; try done.
    + by rewrite length_fmap.
    + apply Forall_fmap, Forall_forall. intros c Hc%elem_of_elements. simpl.
      split; [done|]. apply bool_decide_eq_true_2. by apply Hopen.
    + apply NoDup_elements.
    + intros c. apply elem_of_elements.
    + intros c Hc. apply list_elem_of_fmap. exists c. split.
      * unfold send_result. by rewrite (bool_decide_eq_true_2 _ (Hopen c Hc)).
      * by apply elem_of_elements.
  - destruct (Hopen c Hc Hclosed).
Qed.


(** X13.  The handler puts its connection into the set before it reads a
    message: the peer that sends a request is among those the answer is
    sent to, if it is still a member when the dispatcher returns. *)
Theorem originator_receives_its_response
    (websocket : client) (message : string) (call : invocation)
    (ending : closure) (w w1 : world) (text : string) :
  envelope message call →
  registered (inv_cmd call) w →
  answers call (set_connected_clients ({[websocket]} ∪ connected_clients w) w) w1 text →
  websocket ∈ connected_clients w1 →
  send_result w1 text websocket
    ∈ sends (handle_frontend_connections websocket [message] ending w).1.
Proof.
  intros Henv Hreg Hans Hmember.
  set (w0 := set_connected_clients ({[websocket]} ∪ connected_clients w) w) in *.
  assert (registered (inv_cmd call) w0) as Hreg0 by done.
  pose proof (process_dispatched websocket _ _ _ _ _ Henv Hreg0 Hans) as Hturn.
  simpl in Hturn. set (w1' := set_invoked _ w1) in Hturn.
  pose proof (broadcast_world text w1') as Hw.
  assert (∃ w', process_message websocket message w0 = (w', Return tt) ∧
                sends w' = sends (broadcast text w1').1) as (w' & Hw' & Hsends).
  { destruct ((broadcast text w1').2); rewrite Hturn; eexists; by split. }
  assert (send_result w1 text websocket ∈ sends w') as Hsent.
  { rewrite Hsends, Hw. simpl. apply elem_of_app. right.
    apply (broadcast_recipients text w1). by exists websocket. }
  unfold handle_frontend_connections. fold w0. simpl. rewrite Hw'.
  by destruct ending.
Qed.

End RelayExtras.

(** ** More on terminating the child *)

Section TerminationExtras.
Import Runtime.

Ltac split_Qle :=
  match goal with
  | |- context [Qle_bool ?a ?b] =>
      lazymatch a with context [Qle_bool _ _] => fail | _ => idtac end;
      lazymatch b with context [Qle_bool _ _] => fail | _ => idtac end;
      destruct (Qle_bool_reflect a b); simpl
  end.

(** X17.  [terminate_process_safely] returns at the moment the child is
    gone: at once if it was gone before the call, and otherwise at the
    time of its exit, be that exit its own, the effect of the terminate
    request or the effect of the kill. *)
Theorem termination_returns_when_the_child_is_gone (p : process) :
  (∀ t, terminate_latency p = Some t → 0 <= t)%Q →
  (0 <= kill_latency p)%Q →
  ∃ r d,
    terminate_process_safely p = Some r ∧
    exits_at r = Some d ∧
    (d <= 0 → clock r == 0)%Q ∧
    (0 <= d → clock r == d)%Q.
Proof.
  intros Ht Hk.
  unfold terminate_process_safely, join, terminate, kill, is_alive, start, earliest.
  destruct p as [[d|] [latency|] k]; simpl in *;
    try (specialize (Ht latency eq_refl));
    repeat split_Qle; try (exfalso; lra).
  all: eexists _, _; split_and!; [reflexivity | reflexivity | simpl; intros; lra | simpl; intros; lra].
Qed.

End TerminationExtras.

(** ** More on tasks *)

Section TaskExtras.
Import Py Runtime.

Lemma two_launches (c1 c2 : coroutine) (l : loop) :
  let t1 := (launch_background_task c1 l).1 in
  let l1 := (launch_background_task c1 l).2 in
  let t2 := (launch_background_task c2 l1).1 in
  let l2 := (launch_background_task c2 l1).2 in
  t1 ≠ t2 ∧
  background_tasks l2 = {[t1; t2]} ∪ background_tasks l ∧
  tasks l2 !! t1 = Some (Task c1 Pending false [DiscardBackgroundTask]) ∧
  tasks l2 !! t2 = Some (Task c2 Pending false [DiscardBackgroundTask]) ∧
  (∀ t, t ≠ t1 → t ≠ t2 → tasks l2 !! t = tasks l !! t) ∧
  current_task l2 = current_task l.
Proof.
  intros t1 l1 t2 l2. subst t1 l1 t2 l2.
  rewrite !launch_background_task_spec. simpl.
  set (t1 := fresh (dom (tasks l))).
  set (m1 := <[t1 := _]> (tasks l)).
  set (t2 := fresh (dom m1)).
  assert (t1 ≠ t2) as Hne.
  { intros Heq. pose proof (is_fresh (dom m1)) as Hfresh. fold t2 in Hfresh.
    apply Hfresh. rewrite <- Heq. unfold m1. rewrite dom_insert_L. set_solver. }
  split_and!.
  - done.
  - set_solver.
  - rewrite lookup_insert_ne by done. unfold m1. by rewrite lookup_insert_eq.
  - by rewrite lookup_insert_eq.
  - intros t Ht1 Ht2. rewrite lookup_insert_ne by done.
    unfold m1. by rewrite lookup_insert_ne.
  - done.
Qed.

(** X14.  Two calls of [launch_background_task], as [run_native_runtime]
    makes them, give two different tasks, both pending, both in the set
    with their discarding callback; the other tasks and the other members
    of the set are as before. *)
Theorem two_launches_give_two_tracked_tasks (c1 c2 : coroutine) (l : loop) :
  let t1 := (launch_background_task c1 l).1 in
  let l1 := (launch_background_task c1 l).2 in
  let t2 := (launch_background_task c2 l1).1 in
  let l2 := (launch_background_task c2 l1).2 in
  t1 ≠ t2 ∧
  background_tasks l2 = {[t1; t2]} ∪ background_tasks l ∧
  tasks l2 !! t1 = Some (Task c1 Pending false [DiscardBackgroundTask]) ∧
  tasks l2 !! t2 = Some (Task c2 Pending false [DiscardBackgroundTask]) ∧
  (∀ t, t ≠ t1 → t ≠ t2 → tasks l2 !! t = tasks l !! t) ∧
  current_task l2 = current_task l.
Proof. apply two_launches. Qed.

(** The set of background tasks after the drain. *)
Lemma gather_background ts l :
  NoDup ts →
  (∀ t, t ∈ ts → ∃ r, tasks l !! t = Some r ∧ is_pending r = true) →
  match gather ts l with
  | Some (l', _) =>
      ∀ t, t ∈ background_tasks l' ↔
           t ∈ background_tasks l ∧
           ¬ (t ∈ ts ∧ ∃ r, tasks l !! t = Some r ∧
                            DiscardBackgroundTask ∈ done_callbacks r)
  | None => True
  end.
Proof.
  revert l. induction ts as [|t ts IH]; intros l Hnodup Hpending; simpl.
  - intros t. split; [|by intros [? _]]. intros Ht. split; [done|].
    intros [Hin _]. by apply elem_of_nil in Hin.
  - apply NoDup_cons in Hnodup as [Hnotin Hnodup].
    destruct (Hpending t) as (r & Hr & Hp); [by constructor|].
    rewrite Hr. destruct r as [c st q cbs]. simpl in Hp.
    destruct st as [|o']; [|done]. simpl.
    destruct (on_cancel c) as [o|] eqn:Hreact; [|done].
    rewrite (complete_and_run_callbacks t o _ l Hr eq_refl). simpl.
    set (l1 := Loop _ _ _ _).
    assert (∀ t', t' ≠ t → tasks l1 !! t' = tasks l !! t') as Hother.
    { intros t' Hne. simpl. by rewrite lookup_insert_ne. }
    specialize (IH l1 Hnodup).
    destruct (gather ts l1) as [[l' os]|]; simpl; [|done].
    intros t'. rewrite IH.
    2:{ intros t0 Ht0. rewrite Hother by (intros ->; done).
        apply Hpending. by constructor. }
    simpl. destruct (decide (t' = t)) as [->|Hne].
    + destruct (decide (DiscardBackgroundTask ∈ cbs)) as [Hcb|Hcb].
      * rewrite bool_decide_eq_true_2 by done. split.
        -- intros [Hbg _]. set_solver.
        -- intros [_ Hno]. exfalso. apply Hno. split; [by constructor|].
           eexists. split; [exact Hr | done].
      * rewrite bool_decide_eq_false_2 by done. split.
        -- intros [Hbg _]. split; [done|].
           intros [_ (r' & Hr' & Hcb')]. rewrite Hr in Hr'. by injection Hr' as <-.
        -- intros [Hbg _]. split; [done|]. by intros [Hin _].
    + rewrite Hother by done. rewrite elem_of_cons.
      assert (t' ∈ (if bool_decide (DiscardBackgroundTask ∈ cbs)
                    then background_tasks l ∖ {[t]} else background_tasks l)
              ↔ t' ∈ background_tasks l) as -> by (case_bool_decide; set_solver).
      naive_solver.
Qed.


Lemma cancel_each_status ts l t r' :
  tasks (cancel_each ts l) !! t = Some r' →
  ∃ r, tasks l !! t = Some r ∧ is_pending r' = is_pending r.
Proof.
  destruct (cancel_each_spec ts l) as [_ Hlookup]. rewrite Hlookup.
  destruct (tasks l !! t) as [r|]; [|by case_bool_decide].
  case_bool_decide; simpl; intros [= <-]; exists r;
    (split; [done|]); [apply is_pending_request_cancel | done].
Qed.

Lemma cancel_each_background ts l :
  background_tasks (cancel_each ts l) = background_tasks l.
Proof. destruct (cancel_each_spec ts l) as [-> _]. done. Qed.

(** What is left of the loop when the drain is over. *)
Lemma after_the_drain (l l' : loop) :
  current_task l ∉ background_tasks l →
  cancel_all_tasks l = (l', Returns) →
  current_task l' = current_task l ∧
  background_tasks l' ⊆ background_tasks l ∧
  (∀ t r, awaited l t r →
          ∃ o, tasks l' !! t = Some (Task (coro r) (Done o) true [])) ∧
  (∀ t r, awaited l t r → DiscardBackgroundTask ∈ done_callbacks r →
          t ∉ background_tasks l') ∧
  (∀ t r', tasks l' !! t = Some r' → is_pending r' = true → t = current_task l).
Proof.
  intros Hcur. unfold cancel_all_tasks.
  rewrite (bool_decide_eq_false_2 _ Hcur). simpl.
  destruct (awaited_are_cancelled l Hcur)
    as (Hnodup & Hmem & Hcancelled & Hself & Hcur2 & Hstd2).
  set (l1 := cancel_each (elements (background_tasks l)) l) in *.
  set (pending := filter (λ t, t ≠ current_task l1) (elements (all_tasks l1))) in *.
  set (l2 := cancel_each pending l1) in *.
  assert (∀ t, t ∈ pending → ∃ r, tasks l2 !! t = Some r ∧ is_pending r = true)
    as Hpending.
  { intros t (r & Haw)%Hmem. rewrite (Hcancelled t r Haw). eauto. }
  pose proof (gather_spec pending l2 Hnodup Hpending) as Hgather.
  pose proof (gather_background pending l2 Hnodup Hpending) as Hbg.
  destruct (gather pending l2) as [[l3 results]|]; [|done].
  intros [= <-]. rewrite report_spec. simpl.
  destruct Hgather as (_ & Hin & Hout & Hcur3 & _).
  assert (background_tasks l2 = background_tasks l) as Hbg2.
  { unfold l2, l1. by rewrite !cancel_each_background. }
  split_and!.
  - by rewrite Hcur3.
  - intros t Ht. apply Hbg in Ht as [Ht _]. by rewrite <- Hbg2.
  - intros t r Haw.
    destruct (Hin t _ (proj2 (Hmem t) (ex_intro _ r Haw)) (Hcancelled t r Haw))
      as (o & _ & Hl3). by exists o.
  - intros t r Haw Hcb Ht. apply Hbg in Ht as [_ Hno]. apply Hno.
    split; [apply Hmem; eauto|]. rewrite (Hcancelled t r Haw). eauto.
  - intros t r' Hr' Hp. destruct (decide (t = current_task l)) as [|Hne]; [done|].
    exfalso. destruct (decide (t ∈ pending)) as [Hin'|Hnotin].
    + apply Hmem in Hin' as (r & Haw).
      destruct (Hin t _ (proj2 (Hmem t) (ex_intro _ r Haw)) (Hcancelled t r Haw))
        as (o & _ & Hl3).
      rewrite Hl3 in Hr'. by injection Hr' as <-.
    + rewrite (Hout t Hnotin) in Hr'.
      destruct (cancel_each_status _ _ _ _ Hr') as (r1 & Hr1 & Hp1).
      destruct (cancel_each_status _ _ _ _ Hr1) as (r & Hr & Hp0).
      apply Hnotin, Hmem. exists r. split_and!; [done | congruence | done].
Qed.

(** X15.  When [cancel_all_tasks] returns on a tracked loop, every task it
    waited for has left the background task set, the members that remain
    were done before the call, and no task but the caller is pending. *)
Theorem drained_tasks_leave_the_background_set (l : loop) :
  tracked l →
  current_task l ∉ background_tasks l →
  (cancel_all_tasks l).2 = Returns →
  (∀ t r, awaited l t r → t ∉ background_tasks (cancel_all_tasks l).1) ∧
  (∀ t, t ∈ background_tasks (cancel_all_tasks l).1 →
        t ∈ background_tasks l ∧ ∃ r, tasks l !! t = Some r ∧ is_pending r = false) ∧
  (∀ t r, tasks (cancel_all_tasks l).1 !! t = Some r → is_pending r = true →
          t = current_task l).
Proof.
  intros Htracked Hcur Hreturns.
  destruct (cancel_all_tasks l) as [l' how] eqn:Hcall. simpl in *. subst how.
  destruct (after_the_drain l l' Hcur Hcall) as (_ & Hsub & _ & Hgone & Hrest).
  assert (∀ t r, awaited l t r → t ∉ background_tasks l') as Hout.
  { intros t r Haw Ht. destruct (Htracked t (Hsub t Ht)) as (r0 & Hr0 & Hcb).
    destruct Haw as (Hr & Hp & Hne). assert (r0 = r) as -> by congruence.
    by apply (Hgone t r). }
  split_and!; [done | | done].
  intros t Ht. split; [by apply Hsub|].
  destruct (Htracked t (Hsub t Ht)) as (r & Hr & _). exists r. split; [done|].
  destruct (is_pending r) eqn:Hp; [|done]. exfalso.
  apply (Hout t r); [|done]. split_and!; [done | done |].
  intros ->. by apply Hcur, Hsub.
Qed.

(** X16.  Once [cancel_all_tasks] has returned, a second call changes
    nothing and prints nothing. *)
Theorem cancel_all_tasks_twice (l l' : loop) :
  current_task l ∉ background_tasks l →
  cancel_all_tasks l = (l', Returns) →
  cancel_all_tasks l' = (l', Returns).
Proof.
  intros Hcur Hcall.
  destruct (after_the_drain l l' Hcur Hcall) as (Hcur' & Hsub & _ & _ & Hrest).
  assert (current_task l' ∉ background_tasks l') as Hcur2.
  { rewrite Hcur'. intros Hin. by apply Hcur, Hsub. }
  unfold cancel_all_tasks. rewrite (bool_decide_eq_false_2 _ Hcur2). simpl.
  set (l1 := cancel_each (elements (background_tasks l')) l').
  assert (l1 = l') as ->.
  { destruct (cancel_each_spec (elements (background_tasks l')) l') as [Hloop Hlookup].
    fold l1 in Hloop, Hlookup. rewrite Hloop.
    assert (tasks l1 = tasks l') as ->.
    { apply map_eq. intros t. rewrite Hlookup. case_bool_decide as Ht; [|done].
      destruct (tasks l' !! t) as [r|] eqn:Hr; [|done]. simpl. f_equal.
      apply request_cancel_done. destruct (is_pending r) eqn:Hp; [|done].
      exfalso. apply elem_of_elements in Ht.
      rewrite (Hrest t r Hr Hp), <- Hcur' in Ht. done. }
    by destruct l'. }
  assert (filter (λ t, t ≠ current_task l') (elements (all_tasks l')) = []) as ->.
  { apply elem_of_nil_inv. intros t [Hne Ht]%list_elem_of_filter.
    apply elem_of_elements, elem_of_all_tasks in Ht as (r & Hr & Hp).
    apply Hne. rewrite Hcur'. by apply (Hrest t r). }
  simpl. by destruct l'.
Qed.

End TaskExtras.

(** ** Two corners of the task set *)

Section TaskCorners.
Import Py Runtime.

Lemma awaited_is_waited_for l t r :
  awaited l t r →
  t ∈ filter (λ t', t' ≠ current_task (cancel_each (elements (background_tasks l)) l))
             (elements (all_tasks (cancel_each (elements (background_tasks l)) l))).
Proof.
  intros (Hr & Hp & Hne).
  destruct (cancel_each_spec (elements (background_tasks l)) l) as [Hloop _].
  rewrite list_elem_of_filter, elem_of_elements, all_tasks_cancel_each,
    elem_of_all_tasks.
  split; [by rewrite Hloop | eauto].
Qed.

(** X19.  A caller that is itself a member of the background task set
    cancels itself: if there is any task to wait for, [cancel_all_tasks]
    does not return normally; it is left by [CancelledError] once the
    tasks are done, or it waits for ever. *)
Theorem background_caller_is_cancelled_by_its_own_drain (l : loop) :
  current_task l ∈ background_tasks l →
  (∃ t r, awaited l t r) →
  (cancel_all_tasks l).2 = Raises CancelledError ∨ (cancel_all_tasks l).2 = Blocks.
Proof.
  intros Hcur (t & r & Haw). unfold cancel_all_tasks.
  rewrite (bool_decide_eq_true_2 _ Hcur).
  pose proof (awaited_is_waited_for l t r Haw) as Hin.
  set (pending := filter _ _) in *.
  destruct (gather pending _) as [[l3 results]|]; [|by right].
  left. rewrite bool_decide_eq_false_2; [done|].
  intros Hnil. rewrite Hnil in Hin. by apply elem_of_nil in Hin.
Qed.

(** X20.  Launching a task and letting it complete is a round trip for the
    background task set: once the callbacks of the completed task have
    been called the set is what it was before the launch. *)
Theorem completed_launch_restores_the_set (c : coroutine) (o : outcome) (l : loop) :
  tracked l →
  background_tasks
    (run_done_callbacks (launch_background_task c l).1
       (complete (launch_background_task c l).1 o (launch_background_task c l).2))
  = background_tasks l.
Proof.
  intros Htracked. rewrite launch_background_task_spec. simpl.
  set (t := fresh (dom (tasks l))).
  assert (t ∉ background_tasks l) as Hnew.
  { intros Hin. destruct (Htracked t Hin) as (r & Hr & _).
    unfold t in Hr. by rewrite fresh_task_unused in Hr. }
  rewrite (complete_and_run_callbacks t o
             (Task c Pending false [DiscardBackgroundTask])).
  - simpl. set_solver.
  - simpl. by rewrite lookup_insert_eq.
  - done.
Qed.

End TaskCorners.

(** ** The whole session *)

Section OrchestratorFacts.
Import Py Runtime Orchestrator.






End OrchestratorFacts.

(** ** The further properties on the sample data *)

Section MoreSamplesFacts.
Import Py Utils Addresses JsonSafe Connections Samples Runtime RuntimeSamples.
Import Orchestrator MoreSamples.

Lemma split_address_returns_valid_parts_witness :
  split_address int_of_str "localhost:8765" = Return ("localhost", 8765) ∧
  0 ≤ 8765 ≤ 65535.
Proof.
  split; [reflexivity|].
  apply (split_address_returns_valid_parts int_of_str "localhost:8765"
           "localhost" 8765 eq_refl).
Defined.

Lemma split_address_inverts_formatting_witness :
  "::1" ≠ EmptyString ∧
  0 ≤ 8765 ≤ 65535 ∧
  split_address int_of_str ("::1" +:+ String ":" (str_of_int 8765))
    = Return ("::1", 8765).
Proof.
  split; [discriminate|]. split; [lia|].
  apply (split_address_inverts_formatting "::1" 8765); [discriminate | lia].
Defined.

Lemma free_address_splits_witness :
  0 ≤ 49152 ≤ 65535 ∧
  split_address int_of_str (find_free_ports_and_create_addrs 49152)
    = Return ("127.0.0.1", 49152).
Proof. split; [lia|]. apply (free_address_splits 49152). lia. Defined.


Lemma make_json_safe_keeps_safe_data_witness :
  (∀ s, str_scalar (PStr s) = s) ∧
  json_safe (make_json_safe str_scalar settings) = true ∧
  make_json_safe str_scalar (make_json_safe str_scalar settings)
    = make_json_safe str_scalar settings.
Proof.
  split; [reflexivity|]. split; [reflexivity|].
  apply (make_json_safe_keeps_safe_data str_scalar
           (make_json_safe str_scalar settings)); reflexivity.
Defined.

Lemma normalize_args_is_normal_witness :
  (∀ s, str_scalar (PStr s) = s) ∧
  convertible settings = true ∧
  length (normalize_args str_scalar settings) = 1%nat.
Proof.
  split; [reflexivity|]. split; [reflexivity|].
  apply (normalize_args_is_normal str_scalar settings); reflexivity.
Defined.


Lemma numeric_envelope :
  envelope (H := refusing) numeric_request
    (Invocation (Json.Number "7") (Json.Str "r3") (Json.Str "e3") (Json.Object ∅)).
Proof. exists numeric_fields. by vm_compute. Qed.


Lemma non_string_command_witness :
  (∀ name, Json.Number "7" ≠ Json.Str name) ∧
  ∃ record,
    log_level record = ERROR ∧
    process_message (H := refusing) 1%positive numeric_request two_peers
      = (emit record two_peers, Return tt).
Proof.
  assert (Hcmd : ∀ name, Json.Number "7" ≠ Json.Str name) by (intros; discriminate).
  split; [exact Hcmd|].
  apply (non_string_command_is_not_dispatched (H := refusing)
           1%positive numeric_request _ two_peers numeric_envelope Hcmd).
Defined.

Lemma all_malformed :
  Forall (malformed (H := collaborators))
         [broken_request; array_request; incomplete_request].
Proof.
  constructor; [apply broken_request_malformed|].
  constructor; [apply array_request_malformed|].
  constructor; [apply incomplete_request_malformed|]. constructor.
Qed.

Lemma malformed_messages_witness :
  Forall (malformed (H := collaborators))
         [broken_request; array_request; incomplete_request] ∧
  ∃ records : list log_record,
    length records = 3%nat ∧
    (handle_frontend_connections (H := collaborators) 1%positive
       [broken_request; array_request; incomplete_request] ClosedOK two_peers).2
      = Return tt.
Proof.
  split; [exact all_malformed|].
  destruct (malformed_messages_only_fill_the_log (H := collaborators) 1%positive
              [broken_request; array_request; incomplete_request] ClosedOK
              two_peers all_malformed)
    as (records & Hlen & _ & Hrun).
  exists records. split; [exact Hlen|]. by rewrite Hrun.
Defined.

Lemma open_peers_registered : registered (Json.Str "home_dir") open_peers.
Proof. exists "home_dir". split; [done | by eexists]. Qed.

Lemma open_peers_answered call :
  answers (H := collaborators) call open_peers open_peers home_dir_response.
Proof. by exists home_dir_response. Qed.

Lemma open_peers_are_open c :
  c ∈ connected_clients open_peers → c ∉ closed_peers open_peers.
Proof. intros _. apply not_elem_of_empty. Qed.

Lemma quiet_delivery_witness :
  registered (Json.Str "home_dir") open_peers ∧
  ∃ w' new,
    process_message (H := collaborators) 1%positive home_dir_request open_peers
      = (w', Return tt) ∧
    sends w' = sends open_peers ++ new ∧
    log w' = log open_peers.
Proof.
  split; [exact open_peers_registered|].
  destruct (response_to_open_peers_is_delivered_quietly (H := collaborators)
              1%positive home_dir_request _ open_peers open_peers home_dir_response
              home_dir_envelope open_peers_registered (open_peers_answered _)
              open_peers_are_open)
    as (w' & new & Hturn & Hsends & _ & _ & Hlog & _).
  by exists w', new.
Defined.

Lemma originator_witness :
  registered (Json.Str "home_dir") two_peers ∧
  send_result
    (set_connected_clients ({[1%positive]} ∪ connected_clients two_peers) two_peers)
    home_dir_response 1%positive
    ∈ sends (handle_frontend_connections (H := collaborators) 1%positive
               [home_dir_request] ClosedOK two_peers).1.
Proof.
  split; [exact home_dir_registered|].
  apply (originator_receives_its_response (H := collaborators) 1%positive
           home_dir_request
           (Invocation (Json.Str "home_dir") (Json.Str "r1") (Json.Str "e1")
                       (Json.Object ∅))
           ClosedOK two_peers).
  - exact home_dir_envelope.
  - exact home_dir_registered.
  - by exists home_dir_response.
  - apply (bool_decide_unpack _). by vm_compute.
Defined.

Lemma serving_is_tracked : tracked serving.
Proof. apply tracked_launch, tracked_launch, tracked_initial. Qed.

Lemma serving_caller_is_no_background_task :
  current_task serving ∉ background_tasks serving.
Proof. apply (bool_decide_unpack _). by vm_compute. Qed.

Lemma serving_drain_returns : (cancel_all_tasks serving).2 = Returns.
Proof. by vm_compute. Qed.

Lemma drained_tasks_witness :
  tracked serving ∧
  (current_task serving ∉ background_tasks serving) ∧
  (cancel_all_tasks serving).2 = Returns ∧
  ∀ t r, tasks (cancel_all_tasks serving).1 !! t = Some r → is_pending r = true →
         t = current_task serving.
Proof.
  split; [exact serving_is_tracked|].
  split; [exact serving_caller_is_no_background_task|].
  split; [exact serving_drain_returns|].
  apply (drained_tasks_leave_the_background_set serving serving_is_tracked
           serving_caller_is_no_background_task serving_drain_returns).
Defined.

Lemma cancel_all_tasks_twice_witness :
  (current_task serving ∉ background_tasks serving) ∧
  cancel_all_tasks (cancel_all_tasks serving).1
    = ((cancel_all_tasks serving).1, Returns).
Proof.
  split; [exact serving_caller_is_no_background_task|].
  apply (cancel_all_tasks_twice serving (cancel_all_tasks serving).1
           serving_caller_is_no_background_task).
  rewrite (surjective_pairing (cancel_all_tasks serving)) at 1.
  by rewrite serving_drain_returns.
Defined.

Lemma termination_timing_witness :
  (∀ t, terminate_latency stubborn = Some t → 0 <= t)%Q ∧
  (0 <= kill_latency stubborn)%Q ∧
  ∃ r d, terminate_process_safely stubborn = Some r ∧ exits_at r = Some d.
Proof.
  assert (Ht : (∀ t, terminate_latency stubborn = Some t → 0 <= t)%Q)
    by (intros t; discriminate).
  assert (Hk : (0 <= kill_latency stubborn)%Q) by (by vm_compute).
  split; [exact Ht|]. split; [exact Hk|].
  destruct (termination_returns_when_the_child_is_gone stubborn Ht Hk)
    as (r & d & Hr & Hd & _).
  by exists r, d.
Defined.





Lemma self_hosted_caller : current_task self_hosted ∈ background_tasks self_hosted.
Proof. apply (bool_decide_unpack _). by vm_compute. Qed.

Lemma self_hosted_awaits :
  ∃ t r, awaited self_hosted t r.
Proof.
  exists 3%positive. eexists. split_and!; [by vm_compute | done | done].
Qed.

Lemma background_caller_witness :
  current_task self_hosted ∈ background_tasks self_hosted ∧
  (cancel_all_tasks self_hosted).2 ≠ Returns.
Proof.
  split; [exact self_hosted_caller|].
  destruct (background_caller_is_cancelled_by_its_own_drain self_hosted
              self_hosted_caller self_hosted_awaits) as [-> | ->]; discriminate.
Defined.

Lemma completed_launch_witness :
  tracked serving ∧
  background_tasks
    (run_done_callbacks (launch_background_task runtime serving).1
       (complete (launch_background_task runtime serving).1 Returned
          (launch_background_task runtime serving).2))
  = background_tasks serving.
Proof.
  split; [exact serving_is_tracked|].
  apply (completed_launch_restores_the_set runtime Returned serving
           serving_is_tracked).
Defined.

End MoreSamplesFacts.
